(** * Missile-System-RTS: the simulation core of [engine.cpp]

    A shallow embedding of the entity classes [EnemyTarget] and
    [DefenseMissile], of the global collections, of the functions
    [updateEntities], [launchMissile] and [detectionTask] and of the timer
    and SPACE-key branches of the event loop of [main], followed by the
    properties of the specification.  Drawing reads the state and is left
    out.

    Numbers.  The C++ type [float] is IEEE-754 binary32 with rounding to
    nearest-even; it is modelled by [spec_float] at precision 24 and
    maximal exponent 128, so every arithmetic operation of the source is
    the correctly rounded operation here and the model computes.  Each
    operation is rounded on its own (no fused multiply-add, no excess
    precision).

    Objects.  A [std::shared_ptr<EnemyTarget>] is the target record itself,
    held in the list [enemyTargets]; a [std::weak_ptr<EnemyTarget>] is the
    [id] of the object it was made from ([None] once [reset]).  [lock]
    looks the id up among the live objects, which are exactly the elements
    of [enemyTargets]: the vector is the only lasting owner. *)

From Stdlib Require Import ZArith List Bool Lia Sorting.Sorted.
From Stdlib Require Import Floats.SpecFloat.
Import ListNotations.

Local Open Scope Z_scope.

(** ** binary32 arithmetic *)

Module F32.

Definition prec : Z := 24.
Definition emax : Z := 128.

Definition float := spec_float.

Definition add : float -> float -> float := SFadd prec emax.
Definition sub : float -> float -> float := SFsub prec emax.
Definition mul : float -> float -> float := SFmul prec emax.
Definition div : float -> float -> float := SFdiv prec emax.
Definition sqrt : float -> float := SFsqrt prec emax.

(** [a < b], [a <= b], [a > b] and [a >= b] of C++; all false on NaN. *)
Definition ltb : float -> float -> bool := SFltb.
Definition leb : float -> float -> bool := SFleb.
Definition gtb (a b : float) : bool := SFltb b a.
Definition geb (a b : float) : bool := SFleb b a.

(** Conversion of an [int] literal or value to [float]. *)
Definition of_Z (z : Z) : float := binary_normalize prec emax z 0 false.

Definition is_zero (a : float) : bool :=
  match a with S754_zero _ => true | _ => false end.

End F32.

Abbreviation float := F32.float.

Declare Scope f32_scope.
Delimit Scope f32_scope with f32.
Infix "+" := F32.add : f32_scope.
Infix "-" := F32.sub : f32_scope.
Infix "*" := F32.mul : f32_scope.
Infix "/" := F32.div : f32_scope.
Infix "<?" := F32.ltb : f32_scope.
Infix "<=?" := F32.leb : f32_scope.
Infix ">?" := F32.gtb : f32_scope.
Infix ">=?" := F32.geb : f32_scope.

(** ** Constants *)

Definition SCREEN_WIDTH : float := Eval vm_compute in F32.of_Z 800.
Definition SCREEN_HEIGHT : float := Eval vm_compute in F32.of_Z 600.

Definition f0 : float := S754_zero false.
Definition f2 : float := Eval vm_compute in F32.of_Z 2.

(** The literal [0.01f]: the binary32 number nearest to 1/100, which is
    10737418 * 2^-30 (bit pattern 0x3C23D70A). *)
Definition epsilon : float := S754_finite false 10737418 (-30).

(** The literal [225] of the collision test, converted to [float]. *)
Definition f225 : float := Eval vm_compute in F32.of_Z 225.

(** [missileSpeed] of [launchMissile] and [detectionRange] of
    [detectionTask]. *)
Definition missileSpeed : float := Eval vm_compute in F32.of_Z 200.
Definition detectionRange : float := Eval vm_compute in F32.of_Z 500.

(** The largest value of the C++ type [int]. *)
Definition INT_MAX : Z := 2147483647.

(** ** EnemyTarget *)

Module EnemyTarget.

Record t := mk {
  x : float;
  y : float;
  speedX : float;
  speedY : float;
  isActive : bool;
  id : Z
}.

(** The constructor, [id(nextID++)]: it returns the object and the new
    value of the static counter [nextID].  Incrementing an [int] equal to
    [INT_MAX] is undefined behaviour in C++; the model has no result
    there. *)
Definition new (x y speedX speedY : float) (nextID : Z) : option (t * Z) :=
  if nextID <? INT_MAX
  then Some (mk x y speedX speedY true nextID, nextID + 1)
  else None.

Definition setInactive (e : t) : t :=
  mk (x e) (y e) (speedX e) (speedY e) false (id e).

Definition update (deltaTime : float) (e : t) : t :=
  let x' := (x e + speedX e * deltaTime)%f32 in
  let y' := (y e + speedY e * deltaTime)%f32 in
  let e' := mk x' y' (speedX e) (speedY e) (isActive e) (id e) in
  if (x' >? SCREEN_WIDTH)%f32 || (y' <? f0)%f32 || (y' >? SCREEN_HEIGHT)%f32
  then setInactive e'
  else e'.

End EnemyTarget.

(** ** DefenseMissile *)

Module DefenseMissile.

(** [target] is the [weak_ptr]: the id of the target it refers to, or
    [None] when empty.  [serial] is a ghost field, absent from the
    source: the allocation number of the object, which names one missile
    across ticks; no operation reads it. *)
Record t := mk {
  x : float;
  y : float;
  speed : float;
  velocityX : float;
  velocityY : float;
  isActive : bool;
  target : option Z;
  serial : nat
}.

Definition setInactive (m : t) : t :=
  mk (x m) (y m) (speed m) (velocityX m) (velocityY m) false (target m)
     (serial m).

Definition set_velocity (vx vy : float) (m : t) : t :=
  mk (x m) (y m) (speed m) vx vy (isActive m) (target m) (serial m).

Definition set_position (x' y' : float) (m : t) : t :=
  mk x' y' (speed m) (velocityX m) (velocityY m) (isActive m) (target m)
     (serial m).

(** [target.reset()] *)
Definition reset_target (m : t) : t :=
  mk (x m) (y m) (speed m) (velocityX m) (velocityY m) (isActive m) None
     (serial m).

(** [updateVelocity], given the result [sharedTarget] of [target.lock()].
    The second component lists the divisors of the divisions the call
    executes, in order. *)
Definition updateVelocity_divs (sharedTarget : option EnemyTarget.t) (m : t)
  : t * list float :=
  match sharedTarget with
  | Some tg =>
      let dx := (EnemyTarget.x tg - x m)%f32 in
      let dy := (EnemyTarget.y tg - y m)%f32 in
      let distance := F32.sqrt (dx * dx + dy * dy)%f32 in
      if (distance >? epsilon)%f32
      then (set_velocity ((dx / distance) * speed m)%f32
                         ((dy / distance) * speed m)%f32 m,
            [distance; distance])
      else (m, [])
  | None => (m, [])
  end.

Definition updateVelocity (sharedTarget : option EnemyTarget.t) (m : t) : t :=
  fst (updateVelocity_divs sharedTarget m).

(** The constructor: the weak reference is taken from the shared pointer
    passed in, so [lock] inside [updateVelocity] yields that object. *)
Definition new (x y : float) (tg : EnemyTarget.t) (speed : float)
           (serial : nat) : t :=
  updateVelocity (Some tg)
    (mk x y speed f0 f0 true (Some (EnemyTarget.id tg)) serial).

Definition outside (x' y' : float) : bool :=
  ((x' <? f0) || (x' >? SCREEN_WIDTH) || (y' <? f0) || (y' >? SCREEN_HEIGHT))%f32.

(** [update], given the result [sharedTarget] of [target.lock()]. *)
Definition update (sharedTarget : option EnemyTarget.t) (deltaTime : float)
           (m : t) : t :=
  let m1 :=
    match sharedTarget with
    | Some tg =>
        if EnemyTarget.isActive tg
        then updateVelocity sharedTarget m
        else reset_target m
    | None => m
    end in
  let x' := (x m1 + velocityX m1 * deltaTime)%f32 in
  let y' := (y m1 + velocityY m1 * deltaTime)%f32 in
  let m2 := set_position x' y' m1 in
  if outside x' y' then setInactive m2 else m2.

End DefenseMissile.

(** ** The global state *)

(** [nextID] is the static counter [EnemyTarget::nextID]; [nextSerial] is
    the ghost counter behind [DefenseMissile.serial]. *)
Record World := mkWorld {
  enemyTargets : list EnemyTarget.t;
  defenseMissiles : list DefenseMissile.t;
  nextID : Z;
  nextSerial : nat
}.

(** The state at the start of [main]. *)
Definition initial : World := mkWorld [] [] 0 0%nat.

(** [wp.lock()] for a weak pointer [wp], with [heap] the live targets. *)
Definition lock (heap : list EnemyTarget.t) (wp : option Z)
  : option EnemyTarget.t :=
  match wp with
  | Some k => find (fun e => EnemyTarget.id e =? k) heap
  | None => None
  end.

(** A mutation through a shared pointer: the object that [lock] finds under
    the id of [e'] becomes [e']. *)
Fixpoint store (e' : EnemyTarget.t) (heap : list EnemyTarget.t)
  : list EnemyTarget.t :=
  match heap with
  | [] => []
  | e :: rest =>
      if EnemyTarget.id e =? EnemyTarget.id e'
      then e' :: rest
      else e :: store e' rest
  end.

(** [launchMissile] *)
Definition launchMissile (startX startY : float) (tg : EnemyTarget.t)
           (w : World) : World :=
  mkWorld (enemyTargets w)
          (defenseMissiles w ++
             [DefenseMissile.new startX startY tg missileSpeed (nextSerial w)])
          (nextID w)
          (S (nextSerial w)).

Definition sensorX : float := SCREEN_WIDTH.
Definition sensorY : float := (SCREEN_HEIGHT / f2)%f32.

(** The test of [detectionTask] on one target. *)
Definition detected (tg : EnemyTarget.t) : bool :=
  let dx := (EnemyTarget.x tg - sensorX)%f32 in
  let dy := (EnemyTarget.y tg - sensorY)%f32 in
  let distance := F32.sqrt (dx * dx + dy * dy)%f32 in
  (distance <=? detectionRange)%f32.

(** The loop of [detectionTask] over the targets still to scan, with its
    [break]. *)
Fixpoint detectionLoop (scan : list EnemyTarget.t) (w : World) : World :=
  match scan with
  | [] => w
  | tg :: rest =>
      if detected tg
      then launchMissile sensorX sensorY tg w
      else detectionLoop rest w
  end.

Definition detectionTask (w : World) : World :=
  detectionLoop (enemyTargets w) w.

(** The handler of the SPACE key in [main]. *)
Definition keySpace (w : World) : World :=
  match enemyTargets w with
  | [] => w
  | tg :: _ =>
      let missileStartX := SCREEN_WIDTH in
      let missileStartY := (SCREEN_HEIGHT / f2)%f32 in
      launchMissile missileStartX missileStartY tg w
  end.

(** The spawn of [main]: [enemyTargets.emplace_back(make_shared<...>(...))]. *)
Definition spawnTarget (startX startY speedX speedY : float) (w : World)
  : option World :=
  match EnemyTarget.new startX startY speedX speedY (nextID w) with
  | Some (e, n) =>
      Some (mkWorld (enemyTargets w ++ [e]) (defenseMissiles w) n
                    (nextSerial w))
  | None => None
  end.

(** *** [updateEntities] *)

(** The squared distance of the collision test. *)
Definition distance2 (m : DefenseMissile.t) (tg : EnemyTarget.t) : float :=
  let dx := (DefenseMissile.x m - EnemyTarget.x tg)%f32 in
  let dy := (DefenseMissile.y m - EnemyTarget.y tg)%f32 in
  (dx * dx + dy * dy)%f32.

(** One iteration of the collision loop, on missile [m]. *)
Definition collide (m : DefenseMissile.t) (heap : list EnemyTarget.t)
  : DefenseMissile.t * list EnemyTarget.t :=
  if negb (DefenseMissile.isActive m) then (m, heap)
  else
    match lock heap (DefenseMissile.target m) with
    | Some targetPtr =>
        if negb (EnemyTarget.isActive targetPtr) then (m, heap)
        else if (distance2 m targetPtr <? f225)%f32
        then (DefenseMissile.setInactive m,
              store (EnemyTarget.setInactive targetPtr) heap)
        else (m, heap)
    | None => (m, heap)
    end.

(** The collision loop over the missiles. *)
Fixpoint collisions (ms : list DefenseMissile.t) (heap : list EnemyTarget.t)
  : list DefenseMissile.t * list EnemyTarget.t :=
  match ms with
  | [] => ([], heap)
  | m :: rest =>
      let (m', heap1) := collide m heap in
      let (rest', heap2) := collisions rest heap1 in
      (m' :: rest', heap2)
  end.

(** The two update loops. *)
Definition updateAll (deltaTime : float) (w : World) : World :=
  let ts := map (EnemyTarget.update deltaTime) (enemyTargets w) in
  let ms :=
    map (fun m =>
           DefenseMissile.update (lock ts (DefenseMissile.target m))
                                 deltaTime m)
        (defenseMissiles w) in
  mkWorld ts ms (nextID w) (nextSerial w).

Definition collisionPass (w : World) : World :=
  let (ms, ts) := collisions (defenseMissiles w) (enemyTargets w) in
  mkWorld ts ms (nextID w) (nextSerial w).

(** The two [erase(remove_if(...))] calls. *)
Definition compaction (w : World) : World :=
  mkWorld (filter EnemyTarget.isActive (enemyTargets w))
          (filter DefenseMissile.isActive (defenseMissiles w))
          (nextID w) (nextSerial w).

Definition updateEntities (deltaTime : float) (w : World) : World :=
  compaction (collisionPass (updateAll deltaTime w)).

(** *** Runs *)

(** The operations on the state: the spawn, [detectionTask],
    [updateEntities] and the SPACE handler.  A run is any sequence of
    these, with any arguments; the event loop of [main], below, performs
    particular ones. *)
Inductive event :=
| Spawn (startX startY speedX speedY : float)
| Detect
| Update (deltaTime : float)
| Fire.

Definition step (ev : event) (w : World) : option World :=
  match ev with
  | Spawn startX startY speedX speedY =>
      spawnTarget startX startY speedX speedY w
  | Detect => Some (detectionTask w)
  | Update deltaTime => Some (updateEntities deltaTime w)
  | Fire => Some (keySpace w)
  end.

Fixpoint run (evs : list event) (w : World) : option World :=
  match evs with
  | [] => Some w
  | ev :: rest =>
      match step ev w with
      | Some w' => run rest w'
      | None => None
      end
  end.

(** The targets constructed by one event, and by a run, in creation order. *)
Definition created (ev : event) (w : World) : list EnemyTarget.t :=
  match ev with
  | Spawn startX startY speedX speedY =>
      match EnemyTarget.new startX startY speedX speedY (nextID w) with
      | Some (e, _) => [e]
      | None => []
      end
  | _ => []
  end.

Fixpoint creations (evs : list event) (w : World) : list EnemyTarget.t :=
  match evs with
  | [] => []
  | ev :: rest =>
      match step ev w with
      | Some w' => created ev w ++ creations rest w'
      | None => []
      end
  end.

Definition spawns (evs : list event) : list event :=
  filter (fun ev => match ev with Spawn _ _ _ _ => true | _ => false end) evs.

(** A state the program can be in between two events. *)
Definition reachable (w : World) : Prop :=
  exists evs, run evs initial = Some w.

(** *** The event loop of [main] *)

Definition FPS : float := Eval vm_compute in F32.of_Z 60.

(** [enemySpawnInterval = 2.0f] and [detectionInterval = 0.5f]. *)
Definition enemySpawnInterval : float := f2.
Definition detectionInterval : float :=
  Eval vm_compute in F32.div (F32.of_Z 1) (F32.of_Z 2).

Definition f1 : float := Eval vm_compute in F32.of_Z 1.
Definition f50 : float := Eval vm_compute in F32.of_Z 50.

(** The variables of [main] that the simulation depends on, with the global
    state. *)
Record MainLoop := mkMainLoop {
  world : World;
  enemySpawnTimer : float;
  detectionTimer : float
}.

Definition main_initial : MainLoop := mkMainLoop initial f0 f0.

(** The branch for [ALLEGRO_EVENT_TIMER].  [rand1] and [rand2] are the
    values the two calls of [std::rand()] return if the spawn branch is
    taken. *)
Definition timerEvent (rand1 rand2 : Z) (s : MainLoop) : option MainLoop :=
  let deltaTime := (f1 / FPS)%f32 in
  let spawnTimer := (enemySpawnTimer s + deltaTime)%f32 in
  let spawned :=
    if (spawnTimer >=? enemySpawnInterval)%f32
    then
      let startX := f0 in
      let startY := F32.of_Z (Z.rem rand1 600) in
      let speedX := (f50 + F32.of_Z (Z.rem rand2 50))%f32 in
      let speedY := f0 in
      match spawnTarget startX startY speedX speedY (world s) with
      | Some w => Some ((spawnTimer - enemySpawnInterval)%f32, w)
      | None => None
      end
    else Some (spawnTimer, world s) in
  match spawned with
  | Some (spawnTimer', w1) =>
      let detTimer := (detectionTimer s + deltaTime)%f32 in
      let '(detTimer', w2) :=
        if (detTimer >=? detectionInterval)%f32
        then ((detTimer - detectionInterval)%f32, detectionTask w1)
        else (detTimer, w1) in
      Some (mkMainLoop (updateEntities deltaTime w2) spawnTimer' detTimer')
  | None => None
  end.

(** The events of the loop that reach the state: a timer tick, or the
    SPACE key. *)
Inductive input :=
| Timer (rand1 rand2 : Z)
| KeySpace.

Definition handle (i : input) (s : MainLoop) : option MainLoop :=
  match i with
  | Timer rand1 rand2 => timerEvent rand1 rand2 s
  | KeySpace =>
      Some (mkMainLoop (keySpace (world s)) (enemySpawnTimer s)
                       (detectionTimer s))
  end.

(** The operations on the state that one input performs, in order. *)
Definition operations (i : input) (s : MainLoop) : list event :=
  match i with
  | Timer rand1 rand2 =>
      let deltaTime := (f1 / FPS)%f32 in
      (if (enemySpawnTimer s + deltaTime >=? enemySpawnInterval)%f32
       then [Spawn f0 (F32.of_Z (Z.rem rand1 600))
                   (f50 + F32.of_Z (Z.rem rand2 50))%f32 f0]
       else [])
      ++ (if (detectionTimer s + deltaTime >=? detectionInterval)%f32
          then [Detect]
          else [])
      ++ [Update deltaTime]
  | KeySpace => [Fire]
  end.

Fixpoint main_loop (ins : list input) (s : MainLoop) : option MainLoop :=
  match ins with
  | [] => Some s
  | i :: rest =>
      match handle i s with
      | Some s' => main_loop rest s'
      | None => None
      end
  end.

Fixpoint main_operations (ins : list input) (s : MainLoop) : list event :=
  match ins with
  | [] => []
  | i :: rest =>
      match handle i s with
      | Some s' => operations i s ++ main_operations rest s'
      | None => []
      end
  end.

(** *** The interface of the specification *)

(** [launchMissileAtFirstTarget(originX, originY) -> bool] as the
    specification words it: with no target it does nothing and returns
    false; otherwise it launches one missile from the origin at the first
    target and returns true. *)
Definition launchMissileAtFirstTarget (originX originY : float) (w : World)
  : World * bool :=
  match hd_error (enemyTargets w) with
  | None => (w, false)
  | Some tg => (launchMissile originX originY tg w, true)
  end.

(** ** Predicates of the properties *)

(** The magnitude of the direction vector from the missile to the target,
    as [updateVelocity] computes it. *)
Definition direction_magnitude (tg : EnemyTarget.t) (m : DefenseMissile.t)
  : float :=
  let dx := (EnemyTarget.x tg - DefenseMissile.x m)%f32 in
  let dy := (EnemyTarget.y tg - DefenseMissile.y m)%f32 in
  F32.sqrt (dx * dx + dy * dy)%f32.

(** [b] is [a], possibly after [setInactive]. *)
Definition deactivated (a b : EnemyTarget.t) : Prop :=
  b = a \/ b = EnemyTarget.setInactive a.

Definition mdeactivated (a b : DefenseMissile.t) : Prop :=
  b = a \/ b = DefenseMissile.setInactive a.

(** Live targets have distinct ids below the counter, references name ids
    below the counter, and live missiles have distinct serials below the
    serial counter. *)
Definition wf (w : World) : Prop :=
  NoDup (map EnemyTarget.id (enemyTargets w)) /\
  Forall (fun k => k < nextID w) (map EnemyTarget.id (enemyTargets w)) /\
  Forall (fun m => forall k, DefenseMissile.target m = Some k -> k < nextID w)
         (defenseMissiles w) /\
  NoDup (map DefenseMissile.serial (defenseMissiles w)) /\
  Forall (fun s => (s < nextSerial w)%nat)
         (map DefenseMissile.serial (defenseMissiles w)).

(** Between two events every entity in the collections is active. *)
Definition settled (w : World) : Prop :=
  Forall (fun e => EnemyTarget.isActive e = true) (enemyTargets w) /\
  Forall (fun m => DefenseMissile.isActive m = true) (defenseMissiles w).

(** [n] consecutive integers from [first]. *)
Fixpoint ids_from (first : Z) (n : nat) : list Z :=
  match n with
  | O => []
  | S n' => first :: ids_from (first + 1) n'
  end.

(** The reference of [m] locks no active target: it is empty or expired,
    or the target it locks is inactive. *)
Definition lost (heap : list EnemyTarget.t) (m : DefenseMissile.t) : Prop :=
  forall tg, lock heap (DefenseMissile.target m) = Some tg ->
             EnemyTarget.isActive tg = false.

(** The reference of [m] does not lock: it is empty or expired. *)
Definition invalid (heap : list EnemyTarget.t) (m : DefenseMissile.t) : Prop :=
  lock heap (DefenseMissile.target m) = None.

(** What links a missile [m] of a state to the same object [m'] in a later
    state. *)
Definition follows (w : World) (m : DefenseMissile.t)
           (w' : World) (m' : DefenseMissile.t) : Prop :=
  DefenseMissile.serial m = DefenseMissile.serial m' /\
  (DefenseMissile.target m' = DefenseMissile.target m \/
   DefenseMissile.target m' = None) /\
  (lost (enemyTargets w) m ->
   DefenseMissile.velocityX m' = DefenseMissile.velocityX m /\
   DefenseMissile.velocityY m' = DefenseMissile.velocityY m /\
   lost (enemyTargets w') m') /\
  (invalid (enemyTargets w) m -> invalid (enemyTargets w') m').

(** ** Scenarios *)

(** A target at x = -10 moving left at 5 units per second: after one
    second it is at x = -15 and still active. *)
Definition left_target : EnemyTarget.t :=
  EnemyTarget.mk (F32.of_Z (-10)) (F32.of_Z 300) (F32.of_Z (-5)) f0 true 0.

(** A missile at x = 10 flying left at 200 units per second with no target:
    after one second it is beyond the left edge and inactive. *)
Definition left_missile : DefenseMissile.t :=
  DefenseMissile.mk (F32.of_Z 10) (F32.of_Z 300) missileSpeed
                    (F32.of_Z (-200)) f0 true None 0%nat.

(** A missile sitting on its target: the magnitude is zero and the velocity
    it had is kept. *)
Definition coincident_target : EnemyTarget.t :=
  EnemyTarget.mk (F32.of_Z 100) (F32.of_Z 100) f0 f0 true 0.

Definition coincident_missile : DefenseMissile.t :=
  DefenseMissile.mk (F32.of_Z 100) (F32.of_Z 100) missileSpeed
                    (F32.of_Z 200) f0 true (Some 0) 0%nat.

Definition f100 : float := Eval vm_compute in F32.of_Z 100.

Definition homing_target : EnemyTarget.t :=
  EnemyTarget.mk f100 f100 f0 f0 true 0.

Definition homing_missile : DefenseMissile.t :=
  DefenseMissile.new f0 f100 homing_target missileSpeed 0%nat.

(** The missile of the scenario after one update with dt = 1. *)
Definition homing_result : DefenseMissile.t :=
  DefenseMissile.update (Some homing_target) f1 homing_missile.

(** The state a run from the start ends in ([initial] if the run is not
    defined). *)
Definition world_after (evs : list event) : World :=
  match run evs initial with
  | Some w => w
  | None => initial
  end.

Definition f3 : float := Eval vm_compute in F32.of_Z 3.
Definition f5 : float := Eval vm_compute in F32.of_Z 5.
Definition half : float := Eval vm_compute in F32.div (F32.of_Z 1) (F32.of_Z 2).

Definition dummy_target : EnemyTarget.t :=
  EnemyTarget.mk f0 f0 f0 f0 false 0.

Definition dummy_missile : DefenseMissile.t :=
  DefenseMissile.mk f0 f0 f0 f0 f0 false None 0%nat.

Definition first_target (w : World) : EnemyTarget.t :=
  hd dummy_target (enemyTargets w).

Definition first_missile (w : World) : DefenseMissile.t :=
  hd dummy_missile (defenseMissiles w).

(** Two targets spawned at the left edge and moved for five seconds: they
    are at x = 400 and x = 450, both within 500 of the sensor. *)
Definition two_in_range_events : list event :=
  [Spawn f0 (F32.of_Z 300) (F32.of_Z 80) f0;
   Spawn f0 (F32.of_Z 310) (F32.of_Z 90) f0;
   Update f5].

Definition two_in_range : World := world_after two_in_range_events.

(** A stationary target at (200,300) and two missiles fired at it from
    (800,300) at the same moment: after three seconds both missiles are on
    the target. *)
Definition twin_events : list event :=
  [Spawn (F32.of_Z 200) (F32.of_Z 300) f0 f0; Fire; Fire].

Definition twin_world : World := world_after twin_events.

(** The state one tick of three seconds later: the first missile and the
    target are gone, the second missile is left with an expired
    reference. *)
Definition orphan_world : World := updateEntities f3 twin_world.

Definition orphan_events : list event :=
  [Spawn f0 (F32.of_Z 10) (F32.of_Z 60) f0; Detect; Update half].

Definition mixed_events : list event :=
  [Spawn f0 (F32.of_Z 300) (F32.of_Z 80) f0; Detect;
   Spawn f0 (F32.of_Z 310) (F32.of_Z 90) f0; Update f5; Fire;
   Spawn f0 (F32.of_Z 100) (F32.of_Z 50) f0].

(** The first missile and the target of [twin_world] after the update
    loops of a tick of three seconds. *)
Definition twin_missile : DefenseMissile.t :=
  first_missile (updateAll f3 twin_world).

Definition twin_target : EnemyTarget.t :=
  first_target (updateAll f3 twin_world).

(** The second missile of [twin_world] after the same update loops. *)
Definition twin_second : DefenseMissile.t :=
  nth 1 (defenseMissiles (updateAll f3 twin_world)) dummy_missile.

(** 250 timer ticks of the event loop, a little over four seconds: the
    spawn branch is taken twice. *)
Definition four_seconds : list input := repeat (Timer 300 25) 250.

(** A target that has left the field and a missile aimed at it. *)
Definition gone_target : EnemyTarget.t :=
  EnemyTarget.mk (F32.of_Z 900) (F32.of_Z 300) (F32.of_Z 80) f0 false 0.

Definition chasing_missile : DefenseMissile.t :=
  DefenseMissile.mk (F32.of_Z 400) (F32.of_Z 300) missileSpeed
                    (F32.of_Z 200) f0 true (Some 0) 0%nat.

(** The state after [orphan_events], run from [orphan_world]. *)
Definition orphan_later : World :=
  match run orphan_events orphan_world with
  | Some w => w
  | None => orphan_world
  end.

(** ** Drawing *)

(** The calls of the Allegro library are the output of the program: each
    drawing function is modelled by the list of primitives it draws, in
    order.  A colour is the argument triple of [al_map_rgb]. *)
Definition rgb : Type := (Z * Z * Z)%type.

Inductive primitive :=
| FilledCircle (cx cy r : float) (c : rgb)
| Circle (cx cy r : float) (c : rgb) (thickness : float).




(** [predictionTime = 5.0f] and [deltaTime = 0.5f] of
    [drawPredictedTrajectory]. *)
Definition predictionTime : float := Eval vm_compute in F32.of_Z 5.
Definition predictionStep : float :=
  Eval vm_compute in F32.div (F32.of_Z 1) (F32.of_Z 2).

(** The [while] loop of [drawPredictedTrajectory]; [fuel] bounds the number
    of iterations, and the result is [None] when it does not suffice. *)
Fixpoint predictionLoop (fuel : nat) (x y speedX speedY currentTime : float)
  : option (list primitive) :=
  if (currentTime <? predictionTime)%f32
  then
    match fuel with
    | O => None
    | S fuel' =>
        let x' := (x + speedX * predictionStep)%f32 in
        let y' := (y + speedY * predictionStep)%f32 in
        match predictionLoop fuel' x' y' speedX speedY
                             (currentTime + predictionStep)%f32 with
        | Some rest => Some (FilledCircle x' y' f2 (255, 255, 0) :: rest)
        | None => None
        end
    end
  else Some [].

Definition drawPredictedTrajectory (fuel : nat) (target : EnemyTarget.t)
  : option (list primitive) :=
  predictionLoop fuel (EnemyTarget.x target) (EnemyTarget.y target)
                 (EnemyTarget.speedX target) (EnemyTarget.speedY target) f0.



(** ** Predicates of the further properties *)

(** The positions [n] steps of half a second ahead of [(x, y)] at speed
    [(speedX, speedY)]. *)
Fixpoint predicted (n : nat) (x y speedX speedY : float)
  : list (float * float) :=
  match n with
  | O => []
  | S n' =>
      let x' := (x + speedX * predictionStep)%f32 in
      let y' := (y + speedY * predictionStep)%f32 in
      (x', y') :: predicted n' x' y' speedX speedY
  end.

(** [l1] is [l2] with some elements left out, the order kept. *)
Inductive Subseq {A : Type} : list A -> list A -> Prop :=
| Subseq_nil : Subseq [] []
| Subseq_keep a l1 l2 : Subseq l1 l2 -> Subseq (a :: l1) (a :: l2)
| Subseq_skip a l1 l2 : Subseq l1 l2 -> Subseq l1 (a :: l2).

(** [a] is a NaN or carries the sign [s]. *)
Definition has_sign (s : bool) (a : float) : bool :=
  match a with
  | S754_nan => true
  | S754_zero s' | S754_infinity s' | S754_finite s' _ _ => Bool.eqb s s'
  end.

(** [a] is a non-zero number of sign [s]. *)
Definition strictly (s : bool) (a : float) : bool :=
  match a with
  | S754_infinity s' | S754_finite s' _ _ => Bool.eqb s s'
  | _ => false
  end.

(** The values [std::rand()] can return are not negative. *)
Definition rand_ok (i : input) : Prop :=
  match i with
  | Timer rand1 rand2 => 0 <= rand1 /\ 0 <= rand2
  | KeySpace => True
  end.

(** A target as the spawn of [main] makes them: no vertical speed, [y] one
    of 0 .. 599 and [speedX] one of 50 .. 99. *)
Definition in_lane (e : EnemyTarget.t) : Prop :=
  EnemyTarget.speedY e = f0 /\
  (exists k, 0 <= k < 600 /\ EnemyTarget.y e = F32.of_Z k) /\
  (exists j, 0 <= j < 50 /\
             EnemyTarget.speedX e = (f50 + F32.of_Z j)%f32).

(** The operations the event loop of [main] performs on inputs that are
    [rand_ok]: spawns at the left edge in a lane, ticks of 1/60 s. *)
Definition lane_event (ev : event) : Prop :=
  match ev with
  | Spawn startX startY speedX speedY =>
      startX = f0 /\ speedY = f0 /\
      (exists k, 0 <= k < 600 /\ startY = F32.of_Z k) /\
      (exists j, 0 <= j < 50 /\ speedX = (f50 + F32.of_Z j)%f32)
  | Update deltaTime => deltaTime = (f1 / FPS)%f32
  | _ => True
  end.

(** A target in its lane and not outside the field in x. *)
Definition lane_invariant (e : EnemyTarget.t) : Prop :=
  in_lane e /\
  has_sign false (EnemyTarget.x e) = true /\
  (EnemyTarget.x e >? SCREEN_WIDTH)%f32 = false.

(** The state invariant behind the further properties: the live targets are
    in the order of their ids, which lie in [0, nextID), and so do the ids
    the missiles refer to. *)
Definition ordered (w : World) : Prop :=
  StronglySorted Z.lt (map EnemyTarget.id (enemyTargets w)) /\
  Forall (fun k => 0 <= k < nextID w) (map EnemyTarget.id (enemyTargets w)) /\
  Forall (fun m => forall k, DefenseMissile.target m = Some k ->
                             0 <= k < nextID w)
         (defenseMissiles w) /\
  0 <= nextID w.

(** The state of the event loop after [four_seconds]. *)
Definition four_seconds_state : MainLoop :=
  match main_loop four_seconds main_initial with
  | Some s => s
  | None => main_initial
  end.

(** Three calls of [detectionTask] in a row on [two_in_range]. *)
Definition salvo_world : World :=
  Nat.iter 3 detectionTask two_in_range.

(** * Properties *)

(** ** Facts on binary32 comparisons *)

Lemma SFcompare_antisym (a b : float) :
  SFcompare b a = option_map CompOpp (SFcompare a b).
Proof.
  destruct a as [sa|sa| |sa ma ea], b as [sb|sb| |sb mb eb]; simpl;
    try reflexivity;
    try (destruct sa; reflexivity);
    try (destruct sb; reflexivity);
    try (destruct sa, sb; reflexivity).
  assert (Hm : Pos.compare_cont Eq mb ma = CompOpp (Pos.compare_cont Eq ma mb))
    by (symmetry; apply (Pos.compare_cont_antisym ma mb Eq)).
  destruct sa, sb; simpl; try reflexivity;
    rewrite (Z.compare_antisym ea eb), Hm;
    destruct (ea ?= eb); simpl; try reflexivity.
Qed.

(** [a <= b] excludes [a > b]. *)
Lemma leb_not_gtb (a b : float) :
  (a <=? b)%f32 = true -> (a >? b)%f32 = false.
Proof.
  unfold F32.leb, F32.gtb, SFleb, SFltb.
  rewrite (SFcompare_antisym a b).
  destruct (SFcompare a b) as [[ | | ]|]; simpl; congruence.
Qed.

(** A number above [epsilon] is neither a zero nor a NaN. *)
Lemma gtb_epsilon_nonzero (d : float) :
  (d >? epsilon)%f32 = true -> F32.is_zero d = false /\ d <> S754_nan.
Proof.
  destruct d; simpl; intros H; try discriminate H; split; congruence.
Qed.

(** A negative number is not above the screen width. *)
Lemma ltb_zero_not_gtb_width (a : float) :
  (a <? f0)%f32 = true -> (a >? SCREEN_WIDTH)%f32 = false.
Proof.
  destruct a as [s|s| |s m e]; simpl; intros H; try discriminate H;
    destruct s; simpl in *; try discriminate H; reflexivity.
Qed.

Example epsilon_is_one_hundredth :
  F32.div (F32.of_Z 1) (F32.of_Z 100) = epsilon.
Proof. vm_compute. reflexivity. Qed.

Example sensor_position :
  sensorX = F32.of_Z 800 /\ sensorY = F32.of_Z 300.
Proof. split; vm_compute; reflexivity. Qed.

(** ** EnemyTarget.update (C6) *)

(** C6.  [EnemyTarget::update] moves the target to
    [(x + speedX*dt, y + speedY*dt)], leaves speed and id alone, and the
    target is active afterwards exactly when it was active before and none
    of [x > SCREEN_WIDTH], [y < 0], [y > SCREEN_HEIGHT] holds of the new
    position.  The left edge is not tested: a target whose new [x] is
    negative, with [y] inside the vertical bounds, keeps its flag. *)
Theorem EnemyTarget_update_bounds (deltaTime : float) (e : EnemyTarget.t) :
  let e' := EnemyTarget.update deltaTime e in
  let x' := (EnemyTarget.x e + EnemyTarget.speedX e * deltaTime)%f32 in
  let y' := (EnemyTarget.y e + EnemyTarget.speedY e * deltaTime)%f32 in
  EnemyTarget.x e' = x' /\
  EnemyTarget.y e' = y' /\
  EnemyTarget.speedX e' = EnemyTarget.speedX e /\
  EnemyTarget.speedY e' = EnemyTarget.speedY e /\
  EnemyTarget.id e' = EnemyTarget.id e /\
  EnemyTarget.isActive e' =
    EnemyTarget.isActive e &&
    negb ((x' >? SCREEN_WIDTH) || (y' <? f0) || (y' >? SCREEN_HEIGHT))%f32 /\
  ((x' <? f0)%f32 = true ->
   (y' <? f0)%f32 = false -> (y' >? SCREEN_HEIGHT)%f32 = false ->
   EnemyTarget.isActive e' = EnemyTarget.isActive e).
Proof.
  cbv zeta. unfold EnemyTarget.update.
  set (x' := (EnemyTarget.x e + EnemyTarget.speedX e * deltaTime)%f32).
  set (y' := (EnemyTarget.y e + EnemyTarget.speedY e * deltaTime)%f32).
  destruct ((x' >? SCREEN_WIDTH)%f32 || (y' <? f0)%f32
            || (y' >? SCREEN_HEIGHT)%f32) eqn:Hout; simpl;
    repeat split; try reflexivity;
    try (rewrite andb_false_r; reflexivity);
    try (rewrite andb_true_r; reflexivity).
  intros Hx Hy1 Hy2.
  rewrite (ltb_zero_not_gtb_width _ Hx), Hy1, Hy2 in Hout. discriminate Hout.
Qed.

Lemma EnemyTarget_update_bounds_witness :
  EnemyTarget.x (EnemyTarget.update (F32.of_Z 1) left_target) = F32.of_Z (-15)
  /\ EnemyTarget.isActive (EnemyTarget.update (F32.of_Z 1) left_target) = true.
Proof.
  destruct (EnemyTarget_update_bounds (F32.of_Z 1) left_target)
    as (Hx & _ & _ & _ & _ & _ & Hleft).
  split.
  - rewrite Hx. vm_compute. reflexivity.
  - rewrite Hleft; reflexivity.
Defined.

(** ** DefenseMissile.update: bounds (C7) *)

(** C7.  [DefenseMissile::update] leaves the missile inactive whenever the
    position it has moved to fails one of the four tests [x < 0],
    [x > SCREEN_WIDTH], [y < 0], [y > SCREEN_HEIGHT], the left edge
    included; the flag is not touched otherwise. *)
Theorem DefenseMissile_update_bounds
        (sharedTarget : option EnemyTarget.t) (deltaTime : float)
        (m : DefenseMissile.t) :
  let m' := DefenseMissile.update sharedTarget deltaTime m in
  let x' := DefenseMissile.x m' in
  let y' := DefenseMissile.y m' in
  ((x' <? f0)%f32 = true -> DefenseMissile.isActive m' = false) /\
  ((x' >? SCREEN_WIDTH)%f32 = true -> DefenseMissile.isActive m' = false) /\
  ((y' <? f0)%f32 = true -> DefenseMissile.isActive m' = false) /\
  ((y' >? SCREEN_HEIGHT)%f32 = true -> DefenseMissile.isActive m' = false) /\
  (DefenseMissile.outside x' y' = false ->
   DefenseMissile.isActive m' = DefenseMissile.isActive m).
Proof.
  cbv zeta. unfold DefenseMissile.update.
  set (m1 := match sharedTarget with
             | Some tg =>
                 if EnemyTarget.isActive tg
                 then DefenseMissile.updateVelocity sharedTarget m
                 else DefenseMissile.reset_target m
             | None => m
             end).
  assert (Hact : DefenseMissile.isActive m1 = DefenseMissile.isActive m).
  { unfold m1, DefenseMissile.updateVelocity, DefenseMissile.updateVelocity_divs.
    destruct sharedTarget as [tg|]; [|reflexivity].
    destruct (EnemyTarget.isActive tg); [|reflexivity].
    match goal with |- context [if ?c then _ else _] => destruct c end;
      reflexivity. }
  set (x' := (DefenseMissile.x m1 + DefenseMissile.velocityX m1 * deltaTime)%f32).
  set (y' := (DefenseMissile.y m1 + DefenseMissile.velocityY m1 * deltaTime)%f32).
  destruct (DefenseMissile.outside x' y') eqn:Hout; simpl.
  - repeat split; try reflexivity. intros H. rewrite Hout in H. discriminate H.
  - unfold DefenseMissile.outside in Hout.
    apply orb_false_elim in Hout. destruct Hout as [Hout H4].
    apply orb_false_elim in Hout. destruct Hout as [Hout H3].
    apply orb_false_elim in Hout. destruct Hout as [H1 H2].
    repeat split; intros H; try congruence.
Qed.

Lemma DefenseMissile_update_bounds_witness :
  DefenseMissile.isActive
    (DefenseMissile.update None (F32.of_Z 1) left_missile) = false.
Proof.
  destruct (DefenseMissile_update_bounds None (F32.of_Z 1) left_missile)
    as (Hleft & _).
  apply Hleft. vm_compute. reflexivity.
Defined.

(** ** DefenseMissile.updateVelocity: the epsilon guard (C5) *)

(** C5.  Every division [updateVelocity] executes has a divisor above
    [0.01f], which is therefore not zero; when the target is locked, the
    divisor is the magnitude of the direction vector; and when that
    magnitude is at or below [0.01f], the call divides nothing and leaves
    the missile, its velocity included, as it was. *)
Theorem updateVelocity_epsilon_guard
        (sharedTarget : option EnemyTarget.t) (m : DefenseMissile.t) :
  Forall (fun d => (d >? epsilon)%f32 = true /\ F32.is_zero d = false)
         (snd (DefenseMissile.updateVelocity_divs sharedTarget m)) /\
  (forall tg, sharedTarget = Some tg ->
     Forall (fun d => d = direction_magnitude tg m)
            (snd (DefenseMissile.updateVelocity_divs sharedTarget m))) /\
  (forall tg, sharedTarget = Some tg ->
     (direction_magnitude tg m <=? epsilon)%f32 = true ->
     snd (DefenseMissile.updateVelocity_divs sharedTarget m) = [] /\
     DefenseMissile.updateVelocity sharedTarget m = m).
Proof.
  unfold DefenseMissile.updateVelocity, DefenseMissile.updateVelocity_divs.
  destruct sharedTarget as [tg|]; simpl.
  - fold (direction_magnitude tg m).
    destruct (direction_magnitude tg m >? epsilon)%f32 eqn:Hgt; simpl.
    + split; [|split].
      * destruct (gtb_epsilon_nonzero _ Hgt) as [Hz _].
        repeat constructor; assumption.
      * intros tg' [= <-]. repeat constructor.
      * intros tg' [= <-] Hle.
        rewrite (leb_not_gtb _ _ Hle) in Hgt. discriminate Hgt.
    + split; [|split].
      * constructor.
      * intros; constructor.
      * intros; split; reflexivity.
  - split; [|split].
    + constructor.
    + intros tg [=].
    + intros tg [=].
Qed.

Lemma updateVelocity_epsilon_guard_witness :
  direction_magnitude coincident_target coincident_missile = f0 /\
  DefenseMissile.updateVelocity (Some coincident_target) coincident_missile
  = coincident_missile.
Proof.
  split.
  - vm_compute. reflexivity.
  - destruct (updateVelocity_epsilon_guard (Some coincident_target)
                                           coincident_missile)
      as (_ & _ & Hskip).
    apply (Hskip coincident_target); reflexivity.
Defined.

(** ** Homing over one update (C1) *)

(** The missile of the scenario is built by the constructor: it is at
    (0,100) with speed 200 and its reference resolves to the active
    target. *)
Example homing_scenario :
  DefenseMissile.x homing_missile = f0 /\
  DefenseMissile.y homing_missile = f100 /\
  DefenseMissile.speed homing_missile = F32.of_Z 200 /\
  lock [homing_target] (DefenseMissile.target homing_missile)
  = Some homing_target /\
  EnemyTarget.isActive homing_target = true.
Proof. vm_compute. repeat split; reflexivity. Qed.

(** In the scenario of C1 the missile does not end at (100,100): its x is
    above 100 after the update. *)
Lemma homing_not_at_target :
  (DefenseMissile.x homing_result >? f100)%f32 = true /\
  ~ (DefenseMissile.x homing_result = f100 /\
     DefenseMissile.y homing_result = f100).
Proof.
  split.
  - vm_compute. reflexivity.
  - vm_compute. intros [H _]. discriminate H.
Qed.

(** C1, amended.  With a target at (100,100), valid and active, and a
    missile at (0,100) of speed 200, one update with dt = 1 sets the
    velocity to (200, 0), purely +x and of magnitude the speed, and moves
    the missile to (200,100): it travels speed * dt = 200 units and passes
    the target. *)
Theorem homing_one_update (m : DefenseMissile.t) (tg : EnemyTarget.t) :
  DefenseMissile.x m = f0 ->
  DefenseMissile.y m = f100 ->
  DefenseMissile.speed m = F32.of_Z 200 ->
  EnemyTarget.x tg = f100 ->
  EnemyTarget.y tg = f100 ->
  EnemyTarget.isActive tg = true ->
  let m' := DefenseMissile.update (Some tg) f1 m in
  DefenseMissile.velocityX m' = F32.of_Z 200 /\
  DefenseMissile.velocityY m' = f0 /\
  DefenseMissile.x m' = F32.of_Z 200 /\
  DefenseMissile.y m' = F32.of_Z 100 /\
  DefenseMissile.isActive m' = DefenseMissile.isActive m.
Proof.
  destruct m as [mx my sp vx vy act wp ser], tg as [tx ty sx sy tact tid].
  simpl. intros -> -> -> -> -> ->.
  vm_compute. repeat split; reflexivity.
Qed.

Lemma homing_one_update_witness :
  DefenseMissile.x homing_result = F32.of_Z 200 /\
  DefenseMissile.y homing_result = F32.of_Z 100.
Proof.
  destruct (homing_one_update homing_missile homing_target)
    as (_ & _ & Hx & Hy & _); try reflexivity.
  split; assumption.
Defined.

(** ** What the entity operations leave alone *)

Lemma EnemyTarget_update_id (dt : float) (e : EnemyTarget.t) :
  EnemyTarget.id (EnemyTarget.update dt e) = EnemyTarget.id e.
Proof.
  unfold EnemyTarget.update.
  match goal with |- context [if ?c then _ else _] => destruct c end;
    reflexivity.
Qed.

Lemma EnemyTarget_update_inactive (dt : float) (e : EnemyTarget.t) :
  EnemyTarget.isActive e = false ->
  EnemyTarget.isActive (EnemyTarget.update dt e) = false.
Proof.
  unfold EnemyTarget.update. intros H.
  match goal with |- context [if ?c then _ else _] => destruct c end;
    simpl; auto.
Qed.

Lemma updateVelocity_frame (st : option EnemyTarget.t) (m : DefenseMissile.t) :
  let m' := DefenseMissile.updateVelocity st m in
  DefenseMissile.x m' = DefenseMissile.x m /\
  DefenseMissile.y m' = DefenseMissile.y m /\
  DefenseMissile.speed m' = DefenseMissile.speed m /\
  DefenseMissile.isActive m' = DefenseMissile.isActive m /\
  DefenseMissile.target m' = DefenseMissile.target m /\
  DefenseMissile.serial m' = DefenseMissile.serial m.
Proof.
  unfold DefenseMissile.updateVelocity, DefenseMissile.updateVelocity_divs.
  destruct st as [tg|]; simpl; [|tauto].
  match goal with |- context [if ?c then _ else _] => destruct c end;
    simpl; tauto.
Qed.

Lemma DefenseMissile_new_fields (x y : float) (tg : EnemyTarget.t)
      (speed : float) (serial : nat) :
  let m := DefenseMissile.new x y tg speed serial in
  DefenseMissile.x m = x /\
  DefenseMissile.y m = y /\
  DefenseMissile.speed m = speed /\
  DefenseMissile.isActive m = true /\
  DefenseMissile.target m = Some (EnemyTarget.id tg) /\
  DefenseMissile.serial m = serial.
Proof. apply updateVelocity_frame. Qed.

(** [update] keeps the serial, and the reference either stays or is
    dropped. *)
Lemma DefenseMissile_update_frame (st : option EnemyTarget.t) (dt : float)
      (m : DefenseMissile.t) :
  let m' := DefenseMissile.update st dt m in
  DefenseMissile.serial m' = DefenseMissile.serial m /\
  (DefenseMissile.target m' = DefenseMissile.target m \/
   DefenseMissile.target m' = None).
Proof.
  unfold DefenseMissile.update.
  destruct st as [tg|].
  - destruct (EnemyTarget.isActive tg).
    + destruct (updateVelocity_frame (Some tg) m) as (_ & _ & _ & _ & Ht & Hs).
      match goal with |- context [if ?c then _ else _] => destruct c end;
        simpl; auto.
    + match goal with |- context [if ?c then _ else _] => destruct c end;
        simpl; auto.
  - match goal with |- context [if ?c then _ else _] => destruct c end;
      simpl; auto.
Qed.

(** A missile whose reference does not lock, or locks an inactive target,
    keeps its velocity through [update] and holds no reference to a live
    active target afterwards. *)
Lemma DefenseMissile_update_lost (st : option EnemyTarget.t) (dt : float)
      (m : DefenseMissile.t) :
  (forall tg, st = Some tg -> EnemyTarget.isActive tg = false) ->
  let m' := DefenseMissile.update st dt m in
  DefenseMissile.velocityX m' = DefenseMissile.velocityX m /\
  DefenseMissile.velocityY m' = DefenseMissile.velocityY m /\
  DefenseMissile.target m' = match st with
                             | Some _ => None
                             | None => DefenseMissile.target m
                             end /\
  DefenseMissile.x m' =
    (DefenseMissile.x m + DefenseMissile.velocityX m * dt)%f32 /\
  DefenseMissile.y m' =
    (DefenseMissile.y m + DefenseMissile.velocityY m * dt)%f32.
Proof.
  intros Hst. unfold DefenseMissile.update.
  destruct st as [tg|].
  - rewrite (Hst tg eq_refl).
    match goal with |- context [if ?c then _ else _] => destruct c end;
      simpl; auto.
  - match goal with |- context [if ?c then _ else _] => destruct c end;
      simpl; auto.
Qed.

(** ** The detection loop *)

Lemma detectionLoop_find (scan : list EnemyTarget.t) (w : World) :
  detectionLoop scan w =
  match find detected scan with
  | Some tg => launchMissile sensorX sensorY tg w
  | None => w
  end.
Proof.
  induction scan as [|tg rest IH]; simpl; [reflexivity|].
  destruct (detected tg); [reflexivity|apply IH].
Qed.

(** ** The heap: [lock], [store] and deactivation *)

Lemma deactivated_id a b : deactivated a b -> EnemyTarget.id b = EnemyTarget.id a.
Proof. intros [->| ->]; reflexivity. Qed.

Lemma deactivated_trans a b c : deactivated a b -> deactivated b c -> deactivated a c.
Proof.
  intros [->| ->] [->| ->]; unfold deactivated; auto.
Qed.

Lemma mdeactivated_fields a b :
  mdeactivated a b ->
  DefenseMissile.serial b = DefenseMissile.serial a /\
  DefenseMissile.target b = DefenseMissile.target a /\
  DefenseMissile.velocityX b = DefenseMissile.velocityX a /\
  DefenseMissile.velocityY b = DefenseMissile.velocityY a /\
  (DefenseMissile.isActive b = true -> b = a).
Proof.
  intros [->| ->]; simpl; repeat split; auto. discriminate.
Qed.

Section ListFacts.
Context {A B : Type}.

Lemma Forall2_refl_on (R : A -> A -> Prop) (l : list A) :
  (forall a, R a a) -> Forall2 R l l.
Proof. intros HR. induction l; constructor; auto. Qed.

Lemma Forall2_trans_on (R : A -> A -> Prop) (l1 l2 l3 : list A) :
  (forall a b c, R a b -> R b c -> R a c) ->
  Forall2 R l1 l2 -> Forall2 R l2 l3 -> Forall2 R l1 l3.
Proof.
  intros HR H12. revert l3.
  induction H12; intros l3 H23; inversion H23; subst; constructor; eauto.
Qed.

Lemma Forall2_In_r (R : A -> B -> Prop) (l : list A) (l' : list B) (b : B) :
  Forall2 R l l' -> In b l' -> exists a, In a l /\ R a b.
Proof.
  induction 1 as [|a b' l l' Hab _ IH]; simpl; [tauto|].
  intros [->|Hin].
  - exists a. auto.
  - destruct (IH Hin) as (a' & Ha' & HR). exists a'. auto.
Qed.

Lemma Forall2_In_l (R : A -> B -> Prop) (l : list A) (l' : list B) (a : A) :
  Forall2 R l l' -> In a l -> exists b, In b l' /\ R a b.
Proof.
  induction 1 as [|a' b l l' Hab _ IH]; simpl; [tauto|].
  intros [->|Hin].
  - exists b. auto.
  - destruct (IH Hin) as (b' & Hb' & HR). exists b'. auto.
Qed.

Lemma Forall2_map_eq (R : A -> A -> Prop) (f : A -> B) (l l' : list A) :
  (forall a b, R a b -> f b = f a) ->
  Forall2 R l l' -> map f l' = map f l.
Proof.
  intros Hf. induction 1; simpl; [reflexivity|]. f_equal; auto.
Qed.

(** Compaction keeps the keys of the survivors distinct and keeps what
    holds of every key. *)
Lemma NoDup_map_filter (key : A -> B) (keep : A -> bool) (xs : list A)
      (Hnd : NoDup (map key xs)) :
  NoDup (map key (filter keep xs)).
Proof.
  revert Hnd. induction xs as [|a xs IH]; simpl; intros H; [constructor|].
  inversion H as [|? ? Hnin Hnd]; subst.
  destruct (keep a); simpl; auto.
  constructor; auto.
  intros Hin. apply Hnin.
  apply in_map_iff in Hin. destruct Hin as (a' & Ha' & Hin).
  apply filter_In in Hin. rewrite <- Ha'. apply in_map. tauto.
Qed.

Lemma Forall_map_filter (P : B -> Prop) (key : A -> B) (keep : A -> bool)
      (xs : list A) (Hall : Forall P (map key xs)) :
  Forall P (map key (filter keep xs)).
Proof.
  rewrite Forall_forall in *. intros b Hin.
  apply in_map_iff in Hin. destruct Hin as (a & <- & Hin).
  apply filter_In in Hin. apply Hall, in_map. tauto.
Qed.

Lemma NoDup_map_In_eq (f : A -> B) (l : list A) (a b : A) :
  NoDup (map f l) -> In a l -> In b l -> f a = f b -> a = b.
Proof.
  induction l as [|c l IH]; simpl; [tauto|].
  intros H Ha Hb Hf. inversion H as [|? ? Hnin Hnd]; subst.
  destruct Ha as [->|Ha], Hb as [->|Hb]; auto.
  - exfalso. apply Hnin. rewrite Hf. apply in_map. assumption.
  - exfalso. apply Hnin. rewrite <- Hf. apply in_map. assumption.
Qed.
End ListFacts.

Lemma lock_In heap wp tg :
  lock heap wp = Some tg ->
  In tg heap /\ wp = Some (EnemyTarget.id tg).
Proof.
  destruct wp as [k|]; simpl; [|discriminate].
  intros H. apply find_some in H. destruct H as [Hin Hk].
  apply Z.eqb_eq in Hk. subst. auto.
Qed.

Lemma lock_None_iff heap k :
  lock heap (Some k) = None <->
  forall e, In e heap -> EnemyTarget.id e <> k.
Proof.
  simpl. split.
  - intros H e Hin Hk.
    pose proof (find_none _ _ H e Hin) as Hf. simpl in Hf.
    apply Z.eqb_neq in Hf. contradiction.
  - intros H. induction heap as [|e heap IH]; simpl; [reflexivity|].
    destruct (EnemyTarget.id e =? k) eqn:Hk.
    + apply Z.eqb_eq in Hk. exfalso. apply (H e); simpl; auto.
    + apply IH. intros e' Hin. apply H. simpl. auto.
Qed.

(** [lock] on a heap whose objects were only deactivated. *)
Lemma lock_deactivated heap heap' wp :
  Forall2 deactivated heap heap' ->
  match lock heap wp, lock heap' wp with
  | Some a, Some b => deactivated a b
  | None, None => True
  | _, _ => False
  end.
Proof.
  destruct wp as [k|]; simpl; [|tauto].
  induction 1 as [|a b heap heap' Hab _ IH]; simpl; [tauto|].
  rewrite (deactivated_id _ _ Hab).
  destruct (EnemyTarget.id a =? k); assumption.
Qed.

Lemma lock_deactivated_None heap heap' wp :
  Forall2 deactivated heap heap' ->
  lock heap wp = None -> lock heap' wp = None.
Proof.
  intros H Hn. pose proof (lock_deactivated heap heap' wp H) as Hl.
  rewrite Hn in Hl. destruct (lock heap' wp); tauto.
Qed.

Lemma lock_map_update dt heap wp :
  lock (map (EnemyTarget.update dt) heap) wp
  = option_map (EnemyTarget.update dt) (lock heap wp).
Proof.
  destruct wp as [k|]; simpl; [|reflexivity].
  induction heap as [|e heap IH]; simpl; [reflexivity|].
  rewrite EnemyTarget_update_id.
  destruct (EnemyTarget.id e =? k); [reflexivity|apply IH].
Qed.

(** After compaction a reference locks the same object if that object is
    active, and nothing otherwise. *)
Lemma lock_filter heap wp :
  NoDup (map EnemyTarget.id heap) ->
  lock (filter EnemyTarget.isActive heap) wp
  = match lock heap wp with
    | Some tg => if EnemyTarget.isActive tg then Some tg else None
    | None => None
    end.
Proof.
  destruct wp as [k|]; [|reflexivity].
  induction heap as [|e heap IH]; simpl; [reflexivity|].
  intros H. inversion H as [|? ? Hnin Hnd]; subst.
  specialize (IH Hnd). simpl in IH.
  destruct (EnemyTarget.id e =? k) eqn:Hk.
  - apply Z.eqb_eq in Hk.
    destruct (EnemyTarget.isActive e) eqn:Ha; simpl.
    + rewrite (proj2 (Z.eqb_eq _ _) Hk). reflexivity.
    + apply (proj2 (lock_None_iff _ k)).
      intros e' Hin He'. apply Hnin. apply filter_In in Hin.
      rewrite Hk, <- He'. apply in_map. tauto.
  - destruct (EnemyTarget.isActive e) eqn:Ha; simpl.
    + rewrite Hk. exact IH.
    + exact IH.
Qed.

(** A reference to an id below the counter is not affected by a spawn. *)
Lemma lock_app_fresh heap e wp :
  (forall k, wp = Some k -> k <> EnemyTarget.id e) ->
  lock (heap ++ [e]) wp = lock heap wp.
Proof.
  destruct wp as [k|]; simpl; [|reflexivity].
  intros H. specialize (H k eq_refl).
  induction heap as [|a heap IH]; simpl.
  - destruct (EnemyTarget.id e =? k) eqn:Hk; [|reflexivity].
    apply Z.eqb_eq in Hk. congruence.
  - destruct (EnemyTarget.id a =? k); [reflexivity|apply IH].
Qed.

Lemma store_deactivated heap tg :
  lock heap (Some (EnemyTarget.id tg)) = Some tg ->
  Forall2 deactivated heap (store (EnemyTarget.setInactive tg) heap).
Proof.
  simpl. induction heap as [|e heap IH]; simpl; [discriminate|].
  destruct (EnemyTarget.id e =? EnemyTarget.id tg).
  - intros [= ->]. constructor.
    + right. reflexivity.
    + apply Forall2_refl_on. left. reflexivity.
  - intros H. constructor; [left; reflexivity|auto].
Qed.

Lemma lock_store heap tg :
  lock heap (Some (EnemyTarget.id tg)) = Some tg ->
  lock (store (EnemyTarget.setInactive tg) heap) (Some (EnemyTarget.id tg))
  = Some (EnemyTarget.setInactive tg).
Proof.
  simpl. induction heap as [|e heap IH]; simpl; [discriminate|].
  destruct (EnemyTarget.id e =? EnemyTarget.id tg) eqn:Hk; simpl.
  - intros _. rewrite Z.eqb_refl. reflexivity.
  - rewrite Hk. exact IH.
Qed.

(** ** The collision loop *)

Lemma collide_spec (m : DefenseMissile.t) (heap : list EnemyTarget.t) :
  mdeactivated m (fst (collide m heap)) /\
  Forall2 deactivated heap (snd (collide m heap)) /\
  (lock heap (DefenseMissile.target m) = None -> fst (collide m heap) = m).
Proof.
  assert (Hrefl : Forall2 deactivated heap heap)
    by (apply Forall2_refl_on; left; reflexivity).
  unfold collide.
  destruct (DefenseMissile.isActive m); simpl;
    [|repeat split; auto; left; reflexivity].
  destruct (lock heap (DefenseMissile.target m)) as [tg|] eqn:Hl; simpl;
    [|repeat split; auto; left; reflexivity].
  destruct (EnemyTarget.isActive tg); simpl;
    [|repeat split; auto; try discriminate; left; reflexivity].
  destruct (distance2 m tg <? f225)%f32; simpl;
    [|repeat split; auto; try discriminate; left; reflexivity].
  repeat split; try discriminate.
  - right. reflexivity.
  - apply store_deactivated.
    destruct (lock_In _ _ _ Hl) as [_ Hwp]. rewrite <- Hwp. exact Hl.
Qed.

Lemma collisions_cons m rest heap :
  collisions (m :: rest) heap
  = (fst (collide m heap) :: fst (collisions rest (snd (collide m heap))),
     snd (collisions rest (snd (collide m heap)))).
Proof.
  simpl. destruct (collide m heap) as [m' heap1]. simpl.
  destruct (collisions rest heap1). reflexivity.
Qed.

Lemma collisions_app pre post heap :
  collisions (pre ++ post) heap
  = (fst (collisions pre heap)
       ++ fst (collisions post (snd (collisions pre heap))),
     snd (collisions post (snd (collisions pre heap)))).
Proof.
  revert heap. induction pre as [|m pre IH]; intros heap.
  - simpl. destruct (collisions post heap). reflexivity.
  - rewrite <- app_comm_cons, !collisions_cons, IH. reflexivity.
Qed.

(** The loop only deactivates, and it leaves alone every missile whose
    reference does not lock. *)
Lemma collisions_spec (ms : list DefenseMissile.t) (heap : list EnemyTarget.t) :
  Forall2 (fun a b =>
             mdeactivated a b /\
             (lock heap (DefenseMissile.target a) = None -> b = a))
          ms (fst (collisions ms heap)) /\
  Forall2 deactivated heap (snd (collisions ms heap)).
Proof.
  revert heap. induction ms as [|m rest IH]; intros heap.
  - simpl. split; [constructor|]. apply Forall2_refl_on. left. reflexivity.
  - rewrite collisions_cons. simpl.
    destruct (collide_spec m heap) as (Hm & Hh & Hnone).
    destruct (IH (snd (collide m heap))) as [IHm IHh].
    split.
    + constructor; [auto|].
      eapply Forall2_impl; [|exact IHm].
      intros a b [Hab Hl]. split; [exact Hab|].
      intros Hn. apply Hl. eapply lock_deactivated_None; eassumption.
    + eapply Forall2_trans_on; [apply deactivated_trans| |]; eassumption.
Qed.

(** ** The invariant of the state *)

Lemma wf_initial : wf initial.
Proof. repeat split; constructor. Qed.

Lemma settled_initial : settled initial.
Proof. split; constructor. Qed.

Lemma wf_spawnTarget sx sy vx vy w w' :
  spawnTarget sx sy vx vy w = Some w' -> wf w -> wf w'.
Proof.
  unfold spawnTarget, EnemyTarget.new.
  destruct (nextID w <? INT_MAX); [|discriminate].
  intros [= <-] (Hnd & Hfresh & Hrefs & Hsnd & Hsfresh).
  unfold wf; simpl. rewrite map_app; simpl.
  repeat split; auto.
  - apply NoDup_app; auto.
    + constructor; [simpl; tauto|constructor].
    + intros k Hin [<-|[]].
      rewrite Forall_forall in Hfresh. specialize (Hfresh _ Hin). lia.
  - apply Forall_app. split.
    + eapply Forall_impl; [|exact Hfresh]. simpl. intros; lia.
    + repeat constructor. lia.
  - eapply Forall_impl; [|exact Hrefs]. simpl.
    intros m H k Hk. specialize (H k Hk). lia.
Qed.

Lemma wf_launchMissile sx sy tg w :
  In tg (enemyTargets w) -> wf w -> wf (launchMissile sx sy tg w).
Proof.
  intros Hin (Hnd & Hfresh & Hrefs & Hsnd & Hsfresh).
  destruct (DefenseMissile_new_fields sx sy tg missileSpeed (nextSerial w))
    as (_ & _ & _ & _ & Ht & Hs).
  unfold wf, launchMissile; simpl. rewrite map_app; simpl.
  repeat split; auto.
  - apply Forall_app. split; [assumption|].
    repeat constructor. rewrite Ht. intros k [= <-].
    rewrite Forall_forall in Hfresh. apply Hfresh. apply in_map. assumption.
  - apply NoDup_app; auto.
    + constructor; [simpl; tauto|constructor].
    + intros s Hs' [<-|[]]. rewrite Hs in Hs'.
      rewrite Forall_forall in Hsfresh. specialize (Hsfresh _ Hs'). lia.
  - apply Forall_app. split.
    + eapply Forall_impl; [|exact Hsfresh]. simpl. intros; lia.
    + constructor; [|constructor]. rewrite Hs. lia.
Qed.

Lemma wf_detectionTask w : wf w -> wf (detectionTask w).
Proof.
  intros H. unfold detectionTask. rewrite detectionLoop_find.
  destruct (find detected (enemyTargets w)) as [tg|] eqn:Hf; [|assumption].
  apply find_some in Hf. apply wf_launchMissile; tauto.
Qed.

Lemma wf_keySpace w : wf w -> wf (keySpace w).
Proof.
  intros H. unfold keySpace.
  destruct (enemyTargets w) as [|tg rest] eqn:Hts; [assumption|].
  apply wf_launchMissile; [rewrite Hts; simpl; auto|assumption].
Qed.

Lemma wf_updateAll dt w : wf w -> wf (updateAll dt w).
Proof.
  intros (Hnd & Hfresh & Hrefs & Hsnd & Hsfresh).
  assert (Hid : map EnemyTarget.id (map (EnemyTarget.update dt) (enemyTargets w))
                = map EnemyTarget.id (enemyTargets w)).
  { rewrite map_map. apply map_ext. intros. apply EnemyTarget_update_id. }
  assert (Hser : forall f : DefenseMissile.t -> option EnemyTarget.t,
             map DefenseMissile.serial
                 (map (fun m => DefenseMissile.update (f m) dt m)
                      (defenseMissiles w))
             = map DefenseMissile.serial (defenseMissiles w)).
  { intros f. rewrite map_map. apply map_ext. intros m.
    apply DefenseMissile_update_frame. }
  unfold wf, updateAll; simpl. rewrite Hid, Hser.
  repeat split; auto.
  apply Forall_map. eapply Forall_impl; [|exact Hrefs]. simpl.
  intros m H k Hk.
  match type of Hk with
  | DefenseMissile.target (DefenseMissile.update ?st _ _) = _ =>
      destruct (DefenseMissile_update_frame st dt m) as [_ [Ht|Ht]]
  end; rewrite Ht in Hk; [auto|discriminate].
Qed.

Lemma wf_collisionPass w : wf w -> wf (collisionPass w).
Proof.
  intros (Hnd & Hfresh & Hrefs & Hsnd & Hsfresh).
  destruct (collisions_spec (defenseMissiles w) (enemyTargets w)) as [Hm Hh].
  unfold collisionPass.
  destruct (collisions (defenseMissiles w) (enemyTargets w)) as [ms ts].
  simpl in Hm, Hh.
  assert (Hid : map EnemyTarget.id ts = map EnemyTarget.id (enemyTargets w))
    by (eapply Forall2_map_eq; [apply deactivated_id|exact Hh]).
  assert (Hser : map DefenseMissile.serial ms
                 = map DefenseMissile.serial (defenseMissiles w)).
  { eapply Forall2_map_eq; [|exact Hm]. simpl.
    intros a b [Hab _]. apply mdeactivated_fields. assumption. }
  unfold wf; simpl. rewrite Hid, Hser. repeat split; auto.
  rewrite Forall_forall in *. intros b Hb k Hk.
  destruct (Forall2_In_r _ _ _ _ Hm Hb) as (a & Ha & Hab & _).
  apply mdeactivated_fields in Hab. destruct Hab as (_ & Ht & _).
  apply (Hrefs a Ha). congruence.
Qed.

Lemma wf_compaction w : wf w -> wf (compaction w).
Proof.
  intros (Hnd & Hfresh & Hrefs & Hsnd & Hsfresh).
  unfold wf, compaction; simpl. repeat split.
  - apply NoDup_map_filter. assumption.
  - apply Forall_map_filter. assumption.
  - rewrite Forall_forall in *. intros m Hm. apply Hrefs.
    apply filter_In in Hm. tauto.
  - apply NoDup_map_filter. assumption.
  - apply Forall_map_filter. assumption.
Qed.

Lemma settled_compaction w : settled (compaction w).
Proof.
  split; apply Forall_forall; intros a Ha; apply filter_In in Ha; tauto.
Qed.

Lemma wf_step ev w w' : step ev w = Some w' -> wf w -> wf w'.
Proof.
  destruct ev; simpl.
  - apply wf_spawnTarget.
  - intros [= <-]. apply wf_detectionTask.
  - intros [= <-] H. unfold updateEntities.
    apply wf_compaction, wf_collisionPass, wf_updateAll, H.
  - intros [= <-]. apply wf_keySpace.
Qed.

Lemma settled_launchMissile sx sy tg w :
  settled w -> settled (launchMissile sx sy tg w).
Proof.
  intros [Ht Hm]. split; simpl; [assumption|].
  apply Forall_app. split; [assumption|].
  repeat constructor. apply DefenseMissile_new_fields.
Qed.

Lemma settled_step ev w w' : step ev w = Some w' -> settled w -> settled w'.
Proof.
  destruct ev; simpl.
  - unfold spawnTarget, EnemyTarget.new.
    destruct (nextID w <? INT_MAX); [|discriminate].
    intros [= <-] [Ht Hm]. split; simpl; [|assumption].
    apply Forall_app. split; [assumption|]. repeat constructor.
  - intros [= <-] H. unfold detectionTask. rewrite detectionLoop_find.
    destruct (find detected (enemyTargets w)); [|assumption].
    apply settled_launchMissile, H.
  - intros [= <-] _. apply settled_compaction.
  - intros [= <-] H. unfold keySpace.
    destruct (enemyTargets w); [assumption|].
    apply settled_launchMissile, H.
Qed.

Lemma run_invariant evs w w' :
  run evs w = Some w' -> wf w -> settled w -> wf w' /\ settled w'.
Proof.
  revert w. induction evs as [|ev evs IH]; simpl; intros w.
  - intros [= <-]. auto.
  - destruct (step ev w) as [w1|] eqn:Hs; [|discriminate].
    intros Hr Hw Hst. apply (IH w1 Hr).
    + eapply wf_step; eassumption.
    + eapply settled_step; eassumption.
Qed.

Lemma run_invariant_wf evs w w' : run evs w = Some w' -> wf w -> wf w'.
Proof.
  revert w. induction evs as [|ev evs IH]; simpl; intros w.
  - intros [= <-]. auto.
  - destruct (step ev w) as [w1|] eqn:Hs; [|discriminate].
    intros Hr Hw. apply (IH w1 Hr). eapply wf_step; eassumption.
Qed.

Lemma reachable_invariant w : reachable w -> wf w /\ settled w.
Proof.
  intros [evs Hr].
  eapply run_invariant; [exact Hr|apply wf_initial|apply settled_initial].
Qed.

Lemma wf_world_after evs : wf (world_after evs).
Proof.
  unfold world_after. destruct (run evs initial) as [w|] eqn:Hr.
  - apply (run_invariant_wf evs initial w Hr wf_initial).
  - apply wf_initial.
Qed.

(** ** The event loop runs the operations *)

Lemma run_app evs1 evs2 w w1 w2 :
  run evs1 w = Some w1 -> run evs2 w1 = Some w2 ->
  run (evs1 ++ evs2) w = Some w2.
Proof.
  revert w. induction evs1 as [|ev evs1 IH]; simpl; intros w.
  - intros [= ->]. auto.
  - destruct (step ev w); [apply IH|discriminate].
Qed.

(** What one input of the loop does to the state is the run of its
    operations. *)
Lemma handle_run i s s' :
  handle i s = Some s' ->
  run (operations i s) (world s) = Some (world s').
Proof.
  destruct i as [rand1 rand2|]; unfold handle, operations.
  - unfold timerEvent.
    set (deltaTime := (f1 / FPS)%f32).
    set (startY := F32.of_Z (Z.rem rand1 600)).
    set (speedX := (f50 + F32.of_Z (Z.rem rand2 50))%f32).
    destruct (enemySpawnTimer s + deltaTime >=? enemySpawnInterval)%f32.
    + destruct (spawnTarget f0 startY speedX f0 (world s)) as [w1|] eqn:Hsp;
        [|discriminate].
      destruct (detectionTimer s + deltaTime >=? detectionInterval)%f32;
        intros [= <-]; cbn [app run step world]; rewrite Hsp; reflexivity.
    + destruct (detectionTimer s + deltaTime >=? detectionInterval)%f32;
        intros [= <-]; reflexivity.
  - intros [= <-]. reflexivity.
Qed.

Lemma main_loop_run ins s s' :
  main_loop ins s = Some s' ->
  run (main_operations ins s) (world s) = Some (world s').
Proof.
  revert s. induction ins as [|i ins IH]; simpl; intros s.
  - intros [= <-]. reflexivity.
  - destruct (handle i s) as [s1|] eqn:Hh; [|discriminate].
    intros Hm. eapply run_app; [apply handle_run, Hh|apply IH, Hm].
Qed.

(** Every state of the event loop of [main] is a reachable state. *)
Lemma main_reachable ins s :
  main_loop ins main_initial = Some s -> reachable (world s).
Proof.
  intros H. exists (main_operations ins main_initial).
  apply (main_loop_run ins main_initial s H).
Qed.

(** ** Detection: single engagement (C3) *)

(** C3.  In any state the program can reach, every target in the
    collection is active, and [detectionTask], whose sensor is at (800,300)
    and whose range is 500, scans the collection in order: when [tg] is the
    first target within range it appends exactly one missile, launched from
    the sensor at [tg], whatever targets follow [tg], and changes nothing
    else; when no target is within range it changes nothing. *)
Theorem detectionTask_single_engagement (w : World) :
  reachable w ->
  sensorX = F32.of_Z 800 /\ sensorY = F32.of_Z 300 /\
  detectionRange = F32.of_Z 500 /\
  Forall (fun e => EnemyTarget.isActive e = true) (enemyTargets w) /\
  (forall pre tg post,
     enemyTargets w = pre ++ tg :: post ->
     Forall (fun e => detected e = false) pre ->
     detected tg = true ->
     enemyTargets (detectionTask w) = enemyTargets w /\
     nextID (detectionTask w) = nextID w /\
     defenseMissiles (detectionTask w)
     = defenseMissiles w
         ++ [DefenseMissile.new sensorX sensorY tg missileSpeed (nextSerial w)]
     /\ length (defenseMissiles (detectionTask w))
        = S (length (defenseMissiles w))) /\
  (Forall (fun e => detected e = false) (enemyTargets w) ->
   detectionTask w = w).
Proof.
  intros Hr. destruct (reachable_invariant w Hr) as [_ [Hact _]].
  split; [vm_compute; reflexivity|].
  split; [vm_compute; reflexivity|].
  split; [vm_compute; reflexivity|].
  split; [exact Hact|]. split.
  - intros pre tg post Hts Hpre Htg.
    unfold detectionTask. rewrite detectionLoop_find, Hts.
    assert (Hf : find detected (pre ++ tg :: post) = Some tg).
    { clear Hts. induction Hpre as [|e pre He _ IH]; simpl.
      - rewrite Htg. reflexivity.
      - rewrite He. exact IH. }
    rewrite Hf. simpl. repeat split; auto.
    rewrite length_app. simpl. lia.
  - intros Hnone. unfold detectionTask. rewrite detectionLoop_find.
    destruct (find detected (enemyTargets w)) as [tg|] eqn:Hf; [|reflexivity].
    apply find_some in Hf. destruct Hf as [Hin Hd].
    rewrite Forall_forall in Hnone. rewrite (Hnone _ Hin) in Hd.
    discriminate Hd.
Qed.

Lemma detectionTask_single_engagement_witness :
  detectionTask initial = initial /\
  detected (first_target two_in_range) = true /\
  forallb detected (tl (enemyTargets two_in_range)) = true /\
  length (tl (enemyTargets two_in_range)) = 1%nat /\
  length (defenseMissiles (detectionTask two_in_range))
  = S (length (defenseMissiles two_in_range)).
Proof.
  split.
  { assert (Hr0 : reachable initial) by (exists []; reflexivity).
    destruct (detectionTask_single_engagement initial Hr0)
      as (_ & _ & _ & _ & _ & Hnone).
    apply Hnone. constructor. }
  split; [vm_compute; reflexivity|].
  split; [vm_compute; reflexivity|].
  split; [vm_compute; reflexivity|].
  assert (Hr : reachable two_in_range)
    by (exists two_in_range_events; vm_compute; reflexivity).
  destruct (detectionTask_single_engagement two_in_range Hr)
    as (_ & _ & _ & _ & Hlaunch & _).
  destruct (Hlaunch [] (first_target two_in_range)
                    (tl (enemyTargets two_in_range)))
    as (_ & _ & _ & Hlen).
  - vm_compute. reflexivity.
  - constructor.
  - vm_compute. reflexivity.
  - exact Hlen.
Defined.

(** ** Manual fire (C9) *)

(** C9.  The SPACE handler is the state component of
    [launchMissileAtFirstTarget] called with the origin
    [(SCREEN_WIDTH, SCREEN_HEIGHT/2)].  With an empty target collection it
    returns the state unchanged and the interface reports false; with a
    first target [tg] it appends exactly one missile, at (800,300), of speed
    200, active and referring to [tg], changes nothing else, and the
    interface reports true. *)
Theorem keySpace_manual_fire (w : World) :
  keySpace w
  = fst (launchMissileAtFirstTarget SCREEN_WIDTH (SCREEN_HEIGHT / f2)%f32 w) /\
  (enemyTargets w = [] ->
   keySpace w = w /\
   snd (launchMissileAtFirstTarget SCREEN_WIDTH (SCREEN_HEIGHT / f2)%f32 w)
   = false) /\
  (forall tg rest,
     enemyTargets w = tg :: rest ->
     let m := DefenseMissile.new SCREEN_WIDTH (SCREEN_HEIGHT / f2)%f32 tg
                                 missileSpeed (nextSerial w) in
     keySpace w
     = mkWorld (enemyTargets w) (defenseMissiles w ++ [m]) (nextID w)
               (S (nextSerial w)) /\
     snd (launchMissileAtFirstTarget SCREEN_WIDTH (SCREEN_HEIGHT / f2)%f32 w)
     = true /\
     DefenseMissile.x m = F32.of_Z 800 /\
     DefenseMissile.y m = F32.of_Z 300 /\
     DefenseMissile.speed m = F32.of_Z 200 /\
     DefenseMissile.isActive m = true /\
     DefenseMissile.target m = Some (EnemyTarget.id tg) /\
     lock (enemyTargets w) (DefenseMissile.target m) = Some tg).
Proof.
  split; [|split].
  - unfold keySpace, launchMissileAtFirstTarget.
    destruct (enemyTargets w); reflexivity.
  - unfold keySpace, launchMissileAtFirstTarget.
    intros ->. split; reflexivity.
  - intros tg rest Hts m.
    destruct (DefenseMissile_new_fields SCREEN_WIDTH (SCREEN_HEIGHT / f2)%f32
                tg missileSpeed (nextSerial w))
      as (Hx & Hy & Hsp & Hact & Ht & _).
    fold m in Hx, Hy, Hsp, Hact, Ht.
    rewrite Hx, Hy, Hsp, Hact, Ht.
    assert (Hk : keySpace w
                 = launchMissile SCREEN_WIDTH (SCREEN_HEIGHT / f2)%f32 tg w)
      by (unfold keySpace; rewrite Hts; reflexivity).
    split; [rewrite Hk; reflexivity|].
    split; [unfold launchMissileAtFirstTarget; rewrite Hts; reflexivity|].
    split; [vm_compute; reflexivity|].
    split; [vm_compute; reflexivity|].
    split; [vm_compute; reflexivity|].
    split; [reflexivity|].
    split; [reflexivity|].
    rewrite Hts. unfold lock, find. rewrite Z.eqb_refl. reflexivity.
Qed.

Lemma keySpace_manual_fire_witness :
  keySpace initial = initial /\
  length (defenseMissiles (keySpace two_in_range))
  = S (length (defenseMissiles two_in_range)).
Proof.
  split.
  - destruct (keySpace_manual_fire initial) as (_ & Hempty & _).
    apply Hempty. reflexivity.
  - destruct (keySpace_manual_fire two_in_range) as (_ & _ & Hfire).
    destruct (Hfire (first_target two_in_range)
                    (tl (enemyTargets two_in_range)))
      as (Hw & _).
    + vm_compute. reflexivity.
    + rewrite Hw. cbn [defenseMissiles]. rewrite length_app. simpl. lia.
Defined.

(** ** Target ids (C8) *)

Lemma ids_from_lower first n : Forall (fun k => first <= k) (ids_from first n).
Proof.
  revert first. induction n as [|n IH]; intros first; simpl; constructor.
  - lia.
  - eapply Forall_impl; [|apply IH]. simpl. intros; lia.
Qed.

Lemma ids_from_sorted first n : StronglySorted Z.lt (ids_from first n).
Proof.
  revert first. induction n as [|n IH]; intros first; simpl; constructor.
  - apply IH.
  - eapply Forall_impl; [|apply ids_from_lower]. simpl. intros; lia.
Qed.

Lemma StronglySorted_lt_NoDup (l : list Z) : StronglySorted Z.lt l -> NoDup l.
Proof.
  induction 1 as [|a l _ IH Hall]; constructor; [|exact IH].
  intros Hin. rewrite Forall_forall in Hall. specialize (Hall _ Hin). lia.
Qed.

Lemma step_nextID ev w w' :
  step ev w = Some w' ->
  nextID w' = match ev with
              | Spawn _ _ _ _ => nextID w + 1
              | _ => nextID w
              end.
Proof.
  destruct ev; simpl.
  - unfold spawnTarget, EnemyTarget.new.
    destruct (nextID w <? INT_MAX); [|discriminate]. intros [= <-]. reflexivity.
  - intros [= <-]. unfold detectionTask. rewrite detectionLoop_find.
    destruct (find detected (enemyTargets w)); reflexivity.
  - intros [= <-]. unfold updateEntities, compaction, collisionPass. simpl.
    destruct (collisions _ _). reflexivity.
  - intros [= <-]. unfold keySpace. destruct (enemyTargets w); reflexivity.
Qed.

(** The ids handed out during a run are consecutive from the counter. *)
Lemma creations_ids evs w w' :
  run evs w = Some w' ->
  map EnemyTarget.id (creations evs w)
  = ids_from (nextID w) (length (spawns evs)).
Proof.
  revert w. induction evs as [|ev evs IH]; simpl; intros w; [reflexivity|].
  destruct (step ev w) as [w1|] eqn:Hs; [|discriminate].
  intros Hr. rewrite map_app, (IH w1 Hr), (step_nextID _ _ _ Hs).
  destruct ev; simpl; try reflexivity.
  simpl in Hs. unfold spawnTarget in Hs. unfold EnemyTarget.new in *.
  destruct (nextID w <? INT_MAX); [|discriminate]. reflexivity.
Qed.

(** A run constructs targets without overflow of the counter as long as it
    has room for one id per spawn. *)
Lemma run_defined evs w :
  nextID w + Z.of_nat (length (spawns evs)) <= INT_MAX ->
  exists w', run evs w = Some w'.
Proof.
  revert w. induction evs as [|ev evs IH]; simpl; intros w Hn; [eauto|].
  assert (Hstep : exists w1, step ev w = Some w1).
  { destruct ev; simpl; eauto.
    unfold spawnTarget, EnemyTarget.new. simpl in Hn.
    destruct (nextID w <? INT_MAX) eqn:Hlt; [eauto|].
    apply Z.ltb_ge in Hlt. lia. }
  destruct Hstep as [w1 Hs]. rewrite Hs. apply IH.
  rewrite (step_nextID _ _ _ Hs). destruct ev; simpl in *; lia.
Qed.

(** C8.  In a run of the operations from the start of the program the ids
    of the targets constructed, taken in creation order, are 0, 1, 2, ...:
    strictly increasing and without repetition; the run is defined as long
    as the number of spawns does not exceed [INT_MAX].  The same holds of
    the targets constructed by the event loop of [main] on any inputs. *)
Theorem target_ids_increasing :
  (forall evs : list event,
     Z.of_nat (length (spawns evs)) <= INT_MAX ->
     exists w', run evs initial = Some w') /\
  (forall (evs : list event) (w' : World),
     run evs initial = Some w' ->
     let ids := map EnemyTarget.id (creations evs initial) in
     ids = ids_from 0 (length (spawns evs)) /\
     StronglySorted Z.lt ids /\
     NoDup ids) /\
  (forall (ins : list input) (s : MainLoop),
     main_loop ins main_initial = Some s ->
     let ids :=
       map EnemyTarget.id
           (creations (main_operations ins main_initial) initial) in
     StronglySorted Z.lt ids /\ NoDup ids).
Proof.
  assert (Hrun : forall evs w',
             run evs initial = Some w' ->
             map EnemyTarget.id (creations evs initial)
             = ids_from 0 (length (spawns evs)))
    by (intros evs w' Hr; apply (creations_ids evs initial w' Hr)).
  split; [|split].
  - intros evs Hn. apply run_defined. simpl. exact Hn.
  - intros evs w' Hr ids. unfold ids. rewrite (Hrun evs w' Hr).
    split; [reflexivity|]. split.
    + apply ids_from_sorted.
    + apply StronglySorted_lt_NoDup, ids_from_sorted.
  - intros ins s Hm ids. unfold ids.
    rewrite (Hrun _ _ (main_loop_run ins main_initial s Hm)). split.
    + apply ids_from_sorted.
    + apply StronglySorted_lt_NoDup, ids_from_sorted.
Qed.

Lemma target_ids_increasing_witness :
  map EnemyTarget.id (creations mixed_events initial) = [0; 1; 2] /\
  StronglySorted Z.lt (map EnemyTarget.id (creations mixed_events initial)) /\
  length (creations (main_operations four_seconds main_initial) initial)
  = 2%nat /\
  StronglySorted
    Z.lt
    (map EnemyTarget.id
         (creations (main_operations four_seconds main_initial) initial)).
Proof.
  destruct target_ids_increasing as (Hdef & Hids & Hmain).
  destruct (Hdef mixed_events) as [w' Hr]; [vm_compute; discriminate|].
  destruct (Hids mixed_events w' Hr) as (Heq & Hsorted & _).
  split; [exact Heq|]. split; [exact Hsorted|].
  split; [vm_compute; reflexivity|].
  destruct (main_loop four_seconds main_initial) as [s|] eqn:Hm.
  - apply (Hmain four_seconds s Hm).
  - vm_compute in Hm. discriminate Hm.
Defined.

(** ** The collision pass of a tick (C2) *)

Lemma collisionPass_fields w :
  defenseMissiles (collisionPass w)
  = fst (collisions (defenseMissiles w) (enemyTargets w)) /\
  enemyTargets (collisionPass w)
  = snd (collisions (defenseMissiles w) (enemyTargets w)).
Proof.
  unfold collisionPass. destruct (collisions _ _). split; reflexivity.
Qed.

Lemma lock_filter_None heap wp :
  lock heap wp = None -> lock (filter EnemyTarget.isActive heap) wp = None.
Proof.
  destruct wp as [k|]; [|reflexivity].
  rewrite !lock_None_iff. intros H e Hin. apply H.
  apply filter_In in Hin. tauto.
Qed.

(** C2, amended.  Take the state after the two update loops of a tick and
    a missile [m] of it, with [pre] the missiles the collision loop visits
    before [m].  If, when the loop reaches [m] (that is, on the targets as
    the missiles of [pre] have left them), the missile is active, its
    reference locks a target [tg], [tg] is active and their squared
    distance is below 225, then after the pass the missile is inactive and
    so is the target; and after the compaction of the same tick no missile
    with the serial of [m] and no target with the id of [tg] is left, and
    the reference no longer locks. *)
Theorem collision_deactivates_both
        (deltaTime : float) (w : World)
        (pre post : list DefenseMissile.t) (m : DefenseMissile.t)
        (tg : EnemyTarget.t) :
  wf w ->
  let w1 := updateAll deltaTime w in
  defenseMissiles w1 = pre ++ m :: post ->
  let heap := snd (collisions pre (enemyTargets w1)) in
  DefenseMissile.isActive m = true ->
  lock heap (DefenseMissile.target m) = Some tg ->
  EnemyTarget.isActive tg = true ->
  (distance2 m tg <? f225)%f32 = true ->
  let w2 := collisionPass w1 in
  let w3 := updateEntities deltaTime w in
  In (DefenseMissile.setInactive m) (defenseMissiles w2) /\
  (forall m2, In m2 (defenseMissiles w2) ->
              DefenseMissile.serial m2 = DefenseMissile.serial m ->
              DefenseMissile.isActive m2 = false) /\
  lock (enemyTargets w2) (DefenseMissile.target m)
  = Some (EnemyTarget.setInactive tg) /\
  (forall m3, In m3 (defenseMissiles w3) ->
              DefenseMissile.serial m3 <> DefenseMissile.serial m) /\
  (forall e, In e (enemyTargets w3) ->
             EnemyTarget.id e <> EnemyTarget.id tg) /\
  lock (enemyTargets w3) (DefenseMissile.target m) = None.
Proof.
  intros Hwf w1 Hms heap Hact Hlock Htact Hnear w2 w3.
  assert (Hwf2 : wf w2) by (apply wf_collisionPass, wf_updateAll, Hwf).
  assert (Hw3 : w3 = compaction w2) by reflexivity.
  assert (Hw2 : w2 = collisionPass w1) by reflexivity.
  assert (Hheap : heap = snd (collisions pre (enemyTargets w1)))
    by reflexivity.
  clearbody w3 w2 heap w1.
  destruct Hwf2 as (Hnd2 & _ & _ & Hsnd2 & _).
  destruct (lock_In _ _ _ Hlock) as [_ Hwp].
  destruct (collisionPass_fields w1) as [Hm2 Ht2].
  rewrite <- Hw2 in Hm2, Ht2.
  rewrite Hms, collisions_app, collisions_cons in Hm2, Ht2.
  cbn [fst snd] in Hm2, Ht2. rewrite <- Hheap in Hm2, Ht2.
  assert (Hc : collide m heap
               = (DefenseMissile.setInactive m,
                  store (EnemyTarget.setInactive tg) heap)).
  { unfold collide. rewrite Hact, Hlock, Htact, Hnear. reflexivity. }
  rewrite Hc in Hm2, Ht2. cbn [fst snd] in Hm2, Ht2.
  set (heap2 := store (EnemyTarget.setInactive tg) heap) in *.
  assert (Hin : In (DefenseMissile.setInactive m) (defenseMissiles w2))
    by (rewrite Hm2; apply in_elt).
  assert (Hl2 : lock (enemyTargets w2) (DefenseMissile.target m)
                = Some (EnemyTarget.setInactive tg)).
  { rewrite Ht2, Hwp.
    assert (Hs : lock heap2 (Some (EnemyTarget.id tg))
                 = Some (EnemyTarget.setInactive tg))
      by (apply lock_store; rewrite <- Hwp; exact Hlock).
    destruct (collisions_spec post heap2) as [_ Hh].
    pose proof (lock_deactivated _ _ (Some (EnemyTarget.id tg)) Hh) as Hd.
    rewrite Hs in Hd.
    destruct (lock (snd (collisions post heap2)) (Some (EnemyTarget.id tg)))
      as [b|]; [|contradiction].
    destruct Hd as [->| ->]; reflexivity. }
  assert (Huniq : forall m2, In m2 (defenseMissiles w2) ->
                    DefenseMissile.serial m2 = DefenseMissile.serial m ->
                    m2 = DefenseMissile.setInactive m).
  { intros m2 Hin2 Hser.
    apply (NoDup_map_In_eq DefenseMissile.serial (defenseMissiles w2));
      auto. }
  assert (Hl3 : lock (enemyTargets w3) (DefenseMissile.target m) = None).
  { rewrite Hw3. unfold compaction. cbn [enemyTargets].
    rewrite (lock_filter _ _ Hnd2), Hl2. reflexivity. }
  split; [exact Hin|].
  split.
  { intros m2 Hin2 Hser. rewrite (Huniq m2 Hin2 Hser). reflexivity. }
  split; [exact Hl2|].
  split.
  { intros m3 Hin3 Hser. rewrite Hw3 in Hin3.
    unfold compaction in Hin3. cbn [defenseMissiles] in Hin3.
    apply filter_In in Hin3. destruct Hin3 as [Hin3 Ha3].
    rewrite (Huniq m3 Hin3 Hser) in Ha3. discriminate Ha3. }
  split; [|exact Hl3].
  rewrite Hwp in Hl3. apply lock_None_iff. exact Hl3.
Qed.

Lemma collision_deactivates_both_witness :
  (distance2 twin_missile twin_target <? f225)%f32 = true /\
  In (DefenseMissile.setInactive twin_missile)
     (defenseMissiles (collisionPass (updateAll f3 twin_world))) /\
  lock (enemyTargets (updateEntities f3 twin_world))
       (DefenseMissile.target twin_missile)
  = None.
Proof.
  split; [vm_compute; reflexivity|].
  destruct (collision_deactivates_both
              f3 twin_world [] (tl (defenseMissiles (updateAll f3 twin_world)))
              twin_missile twin_target)
    as (Hin & _ & _ & _ & _ & Hlock).
  - apply wf_world_after.
  - vm_compute. reflexivity.
  - vm_compute. reflexivity.
  - vm_compute. reflexivity.
  - vm_compute. reflexivity.
  - vm_compute. reflexivity.
  - split; [exact Hin|exact Hlock].
Defined.

(** C2 as stated fails on two missiles fired at one target at the same
    moment.  When the collision pass of the tick starts, the second missile
    is active, its reference locks the target, the target is active and
    their squared distance is below 225; but the loop reaches it after the
    first missile has deactivated the target, skips it, and the missile is
    still in the collection, active, after the tick. *)
Lemma second_missile_survives :
  run twin_events initial = Some twin_world /\
  DefenseMissile.isActive twin_second = true /\
  lock (enemyTargets (updateAll f3 twin_world))
       (DefenseMissile.target twin_second)
  = Some twin_target /\
  EnemyTarget.isActive twin_target = true /\
  (distance2 twin_second twin_target <? f225)%f32 = true /\
  defenseMissiles (collisionPass (updateAll f3 twin_world))
  = [DefenseMissile.setInactive twin_missile; twin_second] /\
  defenseMissiles (updateEntities f3 twin_world) = [twin_second] /\
  enemyTargets (updateEntities f3 twin_world) = [].
Proof. vm_compute. repeat split. Qed.

(** ** Missiles that have lost their target (C4, C10) *)

Lemma invalid_lost heap m : invalid heap m -> lost heap m.
Proof. unfold invalid, lost. intros -> tg [=]. Qed.

Lemma follows_refl w m : follows w m w m.
Proof. unfold follows. tauto. Qed.

Lemma follows_trans w m w1 m1 w2 m2 :
  follows w m w1 m1 -> follows w1 m1 w2 m2 -> follows w m w2 m2.
Proof.
  intros (Hs & Ht & Hl & Hi) (Hs' & Ht' & Hl' & Hi').
  unfold follows.
  split; [congruence|]. split; [|split].
  - destruct Ht as [Ht|Ht], Ht' as [Ht'|Ht']; rewrite ?Ht', ?Ht; auto.
  - intros Hlost. destruct (Hl Hlost) as (Hx & Hy & Hl1).
    destruct (Hl' Hl1) as (Hx' & Hy' & Hl2).
    split; [congruence|]. split; [congruence|exact Hl2].
  - auto.
Qed.

(** The surviving missiles of a tick are updated missiles of the state
    before. *)
Lemma updateEntities_survivor dt w m' :
  In m' (defenseMissiles (updateEntities dt w)) ->
  exists m,
    In m (defenseMissiles w) /\
    m' = DefenseMissile.update
           (lock (map (EnemyTarget.update dt) (enemyTargets w))
                 (DefenseMissile.target m)) dt m.
Proof.
  unfold updateEntities, compaction. simpl. intros Hin.
  apply filter_In in Hin. destruct Hin as [Hin Hact].
  destruct (collisionPass_fields (updateAll dt w)) as [Hm _].
  rewrite Hm in Hin.
  destruct (collisions_spec (defenseMissiles (updateAll dt w))
                            (enemyTargets (updateAll dt w))) as [Hspec _].
  destruct (Forall2_In_r _ _ _ _ Hspec Hin) as (m1 & Hin1 & Hd & _).
  apply mdeactivated_fields in Hd. destruct Hd as (_ & _ & _ & _ & Heq).
  rewrite (Heq Hact). clear Heq.
  unfold updateAll in Hin1. simpl in Hin1.
  apply in_map_iff in Hin1. destruct Hin1 as (m & <- & Hin0).
  exists m. auto.
Qed.

Lemma targets_updateEntities dt w :
  exists ts2,
    Forall2 deactivated (map (EnemyTarget.update dt) (enemyTargets w)) ts2 /\
    enemyTargets (updateEntities dt w) = filter EnemyTarget.isActive ts2.
Proof.
  unfold updateEntities, compaction. simpl.
  destruct (collisionPass_fields (updateAll dt w)) as [_ Ht].
  rewrite Ht.
  destruct (collisions_spec (defenseMissiles (updateAll dt w))
                            (enemyTargets (updateAll dt w))) as [_ Hh].
  eexists. split; [exact Hh|reflexivity].
Qed.

(** One event: every missile of the new state that was allocated before the
    event follows a missile of the old state. *)
Lemma step_follows ev w w' :
  wf w -> step ev w = Some w' ->
  (nextSerial w <= nextSerial w')%nat /\
  forall m', In m' (defenseMissiles w') ->
             (DefenseMissile.serial m' < nextSerial w)%nat ->
             exists m, In m (defenseMissiles w) /\ follows w m w' m'.
Proof.
  intros Hwf Hs.
  assert (Hlaunch : forall sx sy tg,
            (nextSerial w <= nextSerial (launchMissile sx sy tg w))%nat /\
            forall m', In m' (defenseMissiles (launchMissile sx sy tg w)) ->
              (DefenseMissile.serial m' < nextSerial w)%nat ->
              exists m, In m (defenseMissiles w) /\
                        follows w m (launchMissile sx sy tg w) m').
  { intros sx sy tg. split; [simpl; lia|]. simpl. intros m' Hin Hlt.
    apply in_app_iff in Hin. destruct Hin as [Hin|[<-|[]]].
    - exists m'. split; [assumption|]. unfold follows. simpl. tauto.
    - destruct (DefenseMissile_new_fields sx sy tg missileSpeed (nextSerial w))
        as (_ & _ & _ & _ & _ & Hser).
      rewrite Hser in Hlt. lia. }
  assert (Hsame : (nextSerial w <= nextSerial w)%nat /\
            forall m', In m' (defenseMissiles w) ->
              (DefenseMissile.serial m' < nextSerial w)%nat ->
              exists m, In m (defenseMissiles w) /\ follows w m w m').
  { split; [lia|]. intros m' Hin _. exists m'. split; [assumption|].
    apply follows_refl. }
  destruct ev; simpl in Hs.
  - (* Spawn *)
    unfold spawnTarget, EnemyTarget.new in Hs.
    destruct (nextID w <? INT_MAX); [|discriminate].
    injection Hs as <-. simpl. split; [lia|].
    intros m' Hin _. exists m'. split; [assumption|].
    destruct Hwf as (_ & _ & Hrefs & _).
    rewrite Forall_forall in Hrefs. specialize (Hrefs m' Hin).
    assert (Hl : lock (enemyTargets w
                         ++ [EnemyTarget.mk startX startY speedX speedY true
                                            (nextID w)])
                      (DefenseMissile.target m')
                 = lock (enemyTargets w) (DefenseMissile.target m')).
    { apply lock_app_fresh. simpl. intros k Hk. specialize (Hrefs k Hk). lia. }
    unfold follows, lost, invalid. simpl. rewrite Hl. tauto.
  - (* Detect *)
    injection Hs as <-. unfold detectionTask. rewrite detectionLoop_find.
    destruct (find detected (enemyTargets w)); [apply Hlaunch|apply Hsame].
  - (* Update *)
    injection Hs as <-. split.
    { unfold updateEntities, compaction, collisionPass. simpl.
      destruct (collisions _ _). simpl. lia. }
    intros m' Hin _.
    destruct (updateEntities_survivor _ _ _ Hin) as (m & Hin0 & ->).
    exists m. split; [assumption|].
    destruct (targets_updateEntities deltaTime w) as (ts2 & Hd & Hts2).
    unfold follows. rewrite Hts2. clear Hts2.
    set (ts1 := map (EnemyTarget.update deltaTime) (enemyTargets w)) in *.
    set (st := lock ts1 (DefenseMissile.target m)).
    assert (Hst : st = option_map (EnemyTarget.update deltaTime)
                                  (lock (enemyTargets w)
                                        (DefenseMissile.target m)))
      by apply lock_map_update.
    destruct (DefenseMissile_update_frame st deltaTime m) as [Hser Htgt].
    assert (Hgone : lost (enemyTargets w) m ->
              invalid (filter EnemyTarget.isActive ts2)
                      (DefenseMissile.update st deltaTime m) /\
              DefenseMissile.velocityX (DefenseMissile.update st deltaTime m)
              = DefenseMissile.velocityX m /\
              DefenseMissile.velocityY (DefenseMissile.update st deltaTime m)
              = DefenseMissile.velocityY m).
    { intros Hlost.
      assert (Hst' : forall tg, st = Some tg -> EnemyTarget.isActive tg = false).
      { intros tg Htg. rewrite Hst in Htg.
        destruct (lock (enemyTargets w) (DefenseMissile.target m)) as [tg0|] eqn:Hl0;
          [|discriminate].
        injection Htg as <-. apply EnemyTarget_update_inactive.
        apply Hlost. exact Hl0. }
      destruct (DefenseMissile_update_lost st deltaTime m Hst')
        as (Hvx & Hvy & Ht & _).
      split; [|auto]. unfold invalid. rewrite Ht.
      destruct st eqn:Hsteq; [reflexivity|].
      apply lock_filter_None. eapply lock_deactivated_None; [exact Hd|].
      exact Hsteq. }
    split; [symmetry; exact Hser|]. split; [exact Htgt|]. split.
    + intros Hlost. destruct (Hgone Hlost) as (Hinv & Hvx & Hvy).
      split; [exact Hvx|]. split; [exact Hvy|].
      apply invalid_lost. exact Hinv.
    + intros Hinv. apply Hgone. apply invalid_lost. exact Hinv.
  - (* Fire *)
    injection Hs as <-. unfold keySpace.
    destruct (enemyTargets w); [apply Hsame|apply Hlaunch].
Qed.

(** A run: the same, by induction on the events. *)
Lemma run_follows evs w w' :
  wf w -> run evs w = Some w' ->
  (nextSerial w <= nextSerial w')%nat /\
  forall m', In m' (defenseMissiles w') ->
             (DefenseMissile.serial m' < nextSerial w)%nat ->
             exists m, In m (defenseMissiles w) /\ follows w m w' m'.
Proof.
  revert w. induction evs as [|ev evs IH]; simpl; intros w Hwf.
  - intros [= <-]. split; [lia|]. intros m' Hin _. exists m'.
    split; [assumption|apply follows_refl].
  - destruct (step ev w) as [w1|] eqn:Hs; [|discriminate]. intros Hr.
    destruct (step_follows _ _ _ Hwf Hs) as [Hle1 Hstep].
    destruct (IH w1 (wf_step _ _ _ Hs Hwf) Hr) as [Hle2 Hrest].
    split; [lia|]. intros m' Hin Hlt.
    destruct (Hrest m' Hin ltac:(lia)) as (m1 & Hin1 & Hf1).
    assert (Hlt1 : (DefenseMissile.serial m1 < nextSerial w)%nat)
      by (destruct Hf1 as [-> _]; exact Hlt).
    destruct (Hstep m1 Hin1 Hlt1) as (m & Hin0 & Hf0).
    exists m. split; [assumption|]. eapply follows_trans; eassumption.
Qed.

(** The missile of a later state with the serial of [m] follows [m]. *)
Lemma run_follows_serial evs w w' m m' :
  wf w -> run evs w = Some w' ->
  In m (defenseMissiles w) -> In m' (defenseMissiles w') ->
  DefenseMissile.serial m' = DefenseMissile.serial m ->
  follows w m w' m'.
Proof.
  intros Hwf Hr Hin Hin' Hser.
  destruct (run_follows _ _ _ Hwf Hr) as [_ Hf].
  pose proof Hwf as (_ & _ & _ & Hsnd & Hsf).
  assert (Hlt : (DefenseMissile.serial m' < nextSerial w)%nat).
  { rewrite Hser. rewrite Forall_forall in Hsf. apply Hsf, in_map, Hin. }
  destruct (Hf m' Hin' Hlt) as (m0 & Hin0 & Hfol).
  assert (m0 = m).
  { apply (NoDup_map_In_eq DefenseMissile.serial (defenseMissiles w)); auto.
    destruct Hfol as [-> _]. exact Hser. }
  subst m0. exact Hfol.
Qed.

(** C4.  A missile whose reference locks no active target (the reference
    is empty or expired, or its target is inactive) keeps its velocity:
    - one [update] given such a lock result leaves the velocity as it was,
      and drops the reference if it locked an inactive target;
    - after any run from a well-formed state in which the missile [m] is in
      that situation, the same missile, if it is still in the collection,
      has the velocity [m] had, still locks no active target, and its
      reference is the old one or empty: it has not retargeted. *)
Theorem lost_target_keeps_velocity :
  (forall (sharedTarget : option EnemyTarget.t) (deltaTime : float)
          (m : DefenseMissile.t),
     (forall tg, sharedTarget = Some tg -> EnemyTarget.isActive tg = false) ->
     let m' := DefenseMissile.update sharedTarget deltaTime m in
     DefenseMissile.velocityX m' = DefenseMissile.velocityX m /\
     DefenseMissile.velocityY m' = DefenseMissile.velocityY m /\
     DefenseMissile.target m' = match sharedTarget with
                                | Some _ => None
                                | None => DefenseMissile.target m
                                end) /\
  (forall (evs : list event) (w w' : World) (m m' : DefenseMissile.t),
     wf w ->
     In m (defenseMissiles w) ->
     lost (enemyTargets w) m ->
     run evs w = Some w' ->
     In m' (defenseMissiles w') ->
     DefenseMissile.serial m' = DefenseMissile.serial m ->
     DefenseMissile.velocityX m' = DefenseMissile.velocityX m /\
     DefenseMissile.velocityY m' = DefenseMissile.velocityY m /\
     lost (enemyTargets w') m' /\
     (DefenseMissile.target m' = DefenseMissile.target m \/
      DefenseMissile.target m' = None)).
Proof.
  split.
  - intros st dt m Hst.
    destruct (DefenseMissile_update_lost st dt m Hst) as (Hvx & Hvy & Ht & _).
    auto.
  - intros evs w w' m m' Hwf Hin Hlost Hr Hin' Hser.
    destruct (run_follows_serial _ _ _ _ _ Hwf Hr Hin Hin' Hser)
      as (_ & Ht & Hl & _).
    destruct (Hl Hlost) as (Hvx & Hvy & Hl').
    auto.
Qed.

Lemma wf_orphan_world : wf orphan_world.
Proof.
  unfold orphan_world.
  apply (wf_step (Update f3) twin_world); [reflexivity|apply wf_world_after].
Qed.

Lemma lost_target_keeps_velocity_witness :
  DefenseMissile.velocityX
    (DefenseMissile.update (Some gone_target) f1 chasing_missile)
  = DefenseMissile.velocityX chasing_missile /\
  DefenseMissile.target
    (DefenseMissile.update (Some gone_target) f1 chasing_missile)
  = None /\
  DefenseMissile.velocityX (first_missile orphan_later)
  = DefenseMissile.velocityX (first_missile orphan_world) /\
  DefenseMissile.velocityY (first_missile orphan_later)
  = DefenseMissile.velocityY (first_missile orphan_world).
Proof.
  destruct lost_target_keeps_velocity as [Hone Hrun].
  destruct (Hone (Some gone_target) f1 chasing_missile) as (Hv & _ & Ht).
  { intros tg [= <-]. reflexivity. }
  destruct (Hrun orphan_events orphan_world orphan_later
                 (first_missile orphan_world) (first_missile orphan_later))
    as (Hvx & Hvy & _).
  - apply wf_orphan_world.
  - vm_compute. auto.
  - intros tg. vm_compute. discriminate.
  - vm_compute. reflexivity.
  - vm_compute. auto.
  - vm_compute. reflexivity.
  - repeat split; assumption.
Defined.

Lemma DefenseMissile_update_None dt m :
  let m1 := DefenseMissile.update None dt m in
  DefenseMissile.isActive m1
  = DefenseMissile.isActive m
    && negb (DefenseMissile.outside (DefenseMissile.x m1) (DefenseMissile.y m1))
  /\ DefenseMissile.target m1 = DefenseMissile.target m
  /\ DefenseMissile.serial m1 = DefenseMissile.serial m.
Proof.
  unfold DefenseMissile.update.
  destruct (DefenseMissile.outside
              (DefenseMissile.x m + DefenseMissile.velocityX m * dt)%f32
              (DefenseMissile.y m + DefenseMissile.velocityY m * dt)%f32)
    eqn:Hout; simpl; rewrite Hout; simpl; repeat split.
  - rewrite andb_false_r. reflexivity.
  - rewrite andb_true_r. reflexivity.
Qed.

(** C10.  Let [m] be a missile of a well-formed state whose reference does
    not lock (empty or expired).  After any run from that state the same
    missile [m'], if still in the collection, has a reference that does not
    lock; and in the tick that follows, whatever its [deltaTime], the update
    loop turns it into [update None deltaTime m'], whose flag is the old
    one unless the new position is outside the field, the collision pass
    leaves that object as it is, and the missile is in the collection after
    the tick exactly when that object is active. *)
Theorem invalid_reference_never_collides
        (evs : list event) (w w' : World) (m m' : DefenseMissile.t)
        (deltaTime : float) :
  wf w ->
  In m (defenseMissiles w) ->
  invalid (enemyTargets w) m ->
  run evs w = Some w' ->
  In m' (defenseMissiles w') ->
  DefenseMissile.serial m' = DefenseMissile.serial m ->
  invalid (enemyTargets w') m' /\
  let m1 := DefenseMissile.update None deltaTime m' in
  let w1 := updateAll deltaTime w' in
  let w2 := collisionPass w1 in
  let w3 := updateEntities deltaTime w' in
  In m1 (defenseMissiles w1) /\
  DefenseMissile.isActive m1
  = DefenseMissile.isActive m'
    && negb (DefenseMissile.outside (DefenseMissile.x m1) (DefenseMissile.y m1))
  /\
  In m1 (defenseMissiles w2) /\
  (forall m2, In m2 (defenseMissiles w2) ->
              DefenseMissile.serial m2 = DefenseMissile.serial m ->
              m2 = m1) /\
  ((exists m3, In m3 (defenseMissiles w3) /\
               DefenseMissile.serial m3 = DefenseMissile.serial m)
   <-> DefenseMissile.isActive m1 = true).
Proof.
  intros Hwf Hin Hinv Hr Hin' Hser.
  destruct (run_follows_serial _ _ _ _ _ Hwf Hr Hin Hin' Hser)
    as (_ & _ & _ & Hi).
  specialize (Hi Hinv). split; [exact Hi|].
  intros m1 w1 w2 w3.
  pose proof (run_invariant_wf evs w w' Hr Hwf) as Hwf'.
  assert (Hwf1 : wf w1) by (apply wf_updateAll, Hwf').
  assert (Hwf2 : wf w2) by (apply wf_collisionPass, Hwf1).
  assert (Hw3 : w3 = compaction w2) by reflexivity.
  assert (Hw2 : w2 = collisionPass w1) by reflexivity.
  destruct (DefenseMissile_update_None deltaTime m') as (Hflag & Ht1 & Hs1).
  fold m1 in Hflag, Ht1, Hs1.
  assert (Hl1 : lock (enemyTargets w1) (DefenseMissile.target m') = None).
  { unfold w1, updateAll. cbn [enemyTargets]. rewrite lock_map_update.
    unfold invalid in Hi. rewrite Hi. reflexivity. }
  assert (Hin1 : In m1 (defenseMissiles w1)).
  { unfold w1 at 1. unfold updateAll. cbn [defenseMissiles].
    apply in_map_iff. exists m'. split; [|assumption].
    change (map (EnemyTarget.update deltaTime) (enemyTargets w'))
      with (enemyTargets w1).
    rewrite Hl1. reflexivity. }
  clearbody w3 w2 w1 m1.
  destruct (collisionPass_fields w1) as [Hm2 _]. rewrite <- Hw2 in Hm2.
  destruct (collisions_spec (defenseMissiles w1) (enemyTargets w1))
    as [Hspec _].
  rewrite <- Hm2 in Hspec.
  assert (Hin2 : In m1 (defenseMissiles w2)).
  { destruct (Forall2_In_l _ _ _ _ Hspec Hin1) as (b & Hb & _ & Hkeep).
    rewrite Ht1 in Hkeep. rewrite (Hkeep Hl1) in Hb. exact Hb. }
  assert (Huniq : forall m2, In m2 (defenseMissiles w2) ->
                    DefenseMissile.serial m2 = DefenseMissile.serial m ->
                    m2 = m1).
  { intros m2 Hb Hs2.
    destruct Hwf2 as (_ & _ & _ & Hsnd2 & _).
    apply (NoDup_map_In_eq DefenseMissile.serial (defenseMissiles w2)); auto.
    congruence. }
  split; [exact Hin1|]. split; [exact Hflag|]. split; [exact Hin2|].
  split; [exact Huniq|]. split.
  - intros (m3 & Hin3 & Hs3). rewrite Hw3 in Hin3.
    unfold compaction in Hin3. cbn [defenseMissiles] in Hin3.
    apply filter_In in Hin3. destruct Hin3 as [Hin3 Ha3].
    rewrite <- (Huniq m3 Hin3 Hs3). exact Ha3.
  - intros Hact. exists m1. split; [|congruence].
    rewrite Hw3. unfold compaction. cbn [defenseMissiles].
    apply filter_In. auto.
Qed.

Lemma invalid_reference_never_collides_witness :
  invalid (enemyTargets orphan_later) (first_missile orphan_later) /\
  In (DefenseMissile.update None f1 (first_missile orphan_later))
     (defenseMissiles (collisionPass (updateAll f1 orphan_later))).
Proof.
  destruct (invalid_reference_never_collides
              orphan_events orphan_world orphan_later
              (first_missile orphan_world) (first_missile orphan_later) f1)
    as (Hinv & _ & _ & Hin & _).
  - apply wf_orphan_world.
  - vm_compute. auto.
  - vm_compute. reflexivity.
  - vm_compute. reflexivity.
  - vm_compute. auto.
  - vm_compute. reflexivity.
  - split; [exact Hinv|exact Hin].
Defined.

(** * Further properties of the code *)

(** ** Invariants of the reachable states *)

Lemma StronglySorted_snoc (l : list Z) (k : Z) :
  StronglySorted Z.lt l -> Forall (fun a => a < k) l ->
  StronglySorted Z.lt (l ++ [k]).
Proof.
  induction 1 as [|a l Hs IH Ha]; simpl; intros Hk.
  - repeat constructor.
  - inversion Hk as [|? ? Hak Hk']; subst. constructor; [auto|].
    apply Forall_app. split; [exact Ha|]. constructor; [exact Hak|constructor].
Qed.

Lemma StronglySorted_map_filter {A : Type} (key : A -> Z) (keep : A -> bool)
      (xs : list A) :
  StronglySorted Z.lt (map key xs) ->
  StronglySorted Z.lt (map key (filter keep xs)).
Proof.
  induction xs as [|a xs IH]; simpl; intros H; [constructor|].
  inversion H as [|? ? Hs Hall]; subst.
  destruct (keep a); simpl; auto.
  constructor; auto. apply Forall_map_filter. exact Hall.
Qed.

(** Strictly increasing integers of an interval are no more than the
    interval holds. *)
Lemma sorted_interval_length (l : list Z) (lo hi : Z) :
  StronglySorted Z.lt l -> Forall (fun k => lo <= k < hi) l -> lo <= hi ->
  Z.of_nat (length l) <= hi - lo.
Proof.
  intros Hs. revert lo. induction Hs as [|a l Hs IH Ha]; intros lo Hin Hle.
  - simpl. lia.
  - inversion Hin as [|? ? Hlo Hin']; subst.
    assert (Hl : Z.of_nat (length l) <= hi - (a + 1)).
    { apply IH; [|lia]. rewrite Forall_forall in *.
      intros k Hk. specialize (Ha k Hk). specialize (Hin' k Hk). lia. }
    simpl length. lia.
Qed.

Lemma targets_launchMissile sx sy tg w :
  enemyTargets (launchMissile sx sy tg w) = enemyTargets w /\
  nextID (launchMissile sx sy tg w) = nextID w.
Proof. split; reflexivity. Qed.

Lemma targets_detectionTask w :
  enemyTargets (detectionTask w) = enemyTargets w /\
  nextID (detectionTask w) = nextID w.
Proof.
  unfold detectionTask. rewrite detectionLoop_find.
  destruct (find detected (enemyTargets w)); split; reflexivity.
Qed.

Lemma targets_keySpace w :
  enemyTargets (keySpace w) = enemyTargets w /\
  nextID (keySpace w) = nextID w.
Proof.
  unfold keySpace. destruct (enemyTargets w) eqn:Hts;
    (split; [exact Hts|reflexivity]).
Qed.

Lemma ids_updateEntities dt w :
  exists ts2,
    map EnemyTarget.id ts2 = map EnemyTarget.id (enemyTargets w) /\
    enemyTargets (updateEntities dt w) = filter EnemyTarget.isActive ts2.
Proof.
  destruct (targets_updateEntities dt w) as (ts2 & Hd & Heq).
  exists ts2. split; [|exact Heq].
  rewrite (Forall2_map_eq deactivated EnemyTarget.id _ _ deactivated_id Hd).
  rewrite map_map. apply map_ext. intros e. apply EnemyTarget_update_id.
Qed.

Lemma nextID_updateEntities dt w : nextID (updateEntities dt w) = nextID w.
Proof.
  unfold updateEntities, compaction, collisionPass. simpl.
  destruct (collisions _ _). reflexivity.
Qed.

Lemma ordered_launchMissile sx sy tg w :
  In tg (enemyTargets w) -> ordered w -> ordered (launchMissile sx sy tg w).
Proof.
  intros Hin (Hs & Hids & Hrefs & Hn).
  destruct (DefenseMissile_new_fields sx sy tg missileSpeed (nextSerial w))
    as (_ & _ & _ & _ & Ht & _).
  unfold ordered. cbn [launchMissile enemyTargets defenseMissiles nextID].
  split; [exact Hs|]. split; [exact Hids|]. split; [|exact Hn].
  apply Forall_app. split; [exact Hrefs|].
  constructor; [|constructor]. rewrite Ht. intros k [= <-].
  rewrite Forall_forall in Hids. apply Hids, in_map, Hin.
Qed.

Lemma ordered_step ev w w' : step ev w = Some w' -> ordered w -> ordered w'.
Proof.
  destruct ev; cbn [step].
  - unfold spawnTarget, EnemyTarget.new.
    destruct (nextID w <? INT_MAX); [|discriminate].
    intros [= <-] (Hs & Hids & Hrefs & Hn).
    unfold ordered. cbn [enemyTargets defenseMissiles nextID].
    rewrite map_app. cbn [map EnemyTarget.id].
    split; [|split; [|split]].
    + apply StronglySorted_snoc; [exact Hs|].
      eapply Forall_impl; [|exact Hids]. cbv beta. intros; lia.
    + apply Forall_app. split.
      * eapply Forall_impl; [|exact Hids]. cbv beta. intros; lia.
      * constructor; [lia|constructor].
    + eapply Forall_impl; [|exact Hrefs]. cbv beta.
      intros m H k Hk. specialize (H k Hk). lia.
    + lia.
  - intros [= <-] H. unfold detectionTask. rewrite detectionLoop_find.
    destruct (find detected (enemyTargets w)) as [tg|] eqn:Hf; [|exact H].
    apply find_some in Hf. apply ordered_launchMissile; tauto.
  - intros [= <-] (Hs & Hids & Hrefs & Hn).
    destruct (ids_updateEntities deltaTime w) as (ts2 & Hid & Heq).
    unfold ordered. rewrite Heq, nextID_updateEntities.
    split; [|split; [|split]].
    + apply StronglySorted_map_filter. rewrite Hid. exact Hs.
    + apply Forall_map_filter. rewrite Hid. exact Hids.
    + apply Forall_forall. intros m' Hin'.
      destruct (updateEntities_survivor _ _ _ Hin') as (m & Hin & ->).
      rewrite Forall_forall in Hrefs. specialize (Hrefs m Hin).
      intros k Hk.
      match type of Hk with
      | DefenseMissile.target (DefenseMissile.update ?st _ _) = _ =>
          destruct (DefenseMissile_update_frame st deltaTime m) as [_ [Ht|Ht]]
      end; rewrite Ht in Hk; [auto|discriminate].
    + exact Hn.
  - intros [= <-] H. unfold keySpace.
    destruct (enemyTargets w) as [|tg rest] eqn:Hts; [exact H|].
    apply ordered_launchMissile; [rewrite Hts; left; reflexivity|exact H].
Qed.

Lemma ordered_reachable w : reachable w -> ordered w.
Proof.
  intros [evs Hr].
  assert (H0 : ordered initial).
  { unfold ordered. cbn. repeat split; try constructor; lia. }
  revert H0 Hr. generalize initial.
  induction evs as [|ev evs IH]; cbn [run]; intros w0 H0.
  - intros [= <-]. exact H0.
  - destruct (step ev w0) as [w1|] eqn:Hs; [|discriminate].
    apply IH. eapply ordered_step; eassumption.
Qed.

(** X1.  In every state the program can reach, and so in every state of
    the event loop of [main], no inactive target and no inactive missile
    is in the collections. *)
Theorem reachable_entities_active :
  (forall w, reachable w ->
     Forall (fun e => EnemyTarget.isActive e = true) (enemyTargets w) /\
     Forall (fun m => DefenseMissile.isActive m = true) (defenseMissiles w)) /\
  (forall ins s, main_loop ins main_initial = Some s ->
     Forall (fun e => EnemyTarget.isActive e = true)
            (enemyTargets (world s)) /\
     Forall (fun m => DefenseMissile.isActive m = true)
            (defenseMissiles (world s))).
Proof.
  assert (H : forall w, reachable w -> settled w)
    by (intros w Hr; apply (reachable_invariant w Hr)).
  split.
  - intros w Hr. apply (H w Hr).
  - intros ins s Hm. apply (H (world s)). apply (main_reachable ins s Hm).
Qed.

(** X2.  In every reachable state the targets of the collection are in
    the order of their ids, strictly increasing, the ids lie in
    [0, nextID), and there are at most [nextID] targets; so the first target
    of the collection, the one the SPACE key fires at, is the one with the
    smallest id. *)
Theorem targets_in_creation_order (w : World) :
  reachable w ->
  StronglySorted Z.lt (map EnemyTarget.id (enemyTargets w)) /\
  Forall (fun e => 0 <= EnemyTarget.id e < nextID w) (enemyTargets w) /\
  Z.of_nat (length (enemyTargets w)) <= nextID w /\
  (forall tg rest,
     enemyTargets w = tg :: rest ->
     Forall (fun e => EnemyTarget.id tg < EnemyTarget.id e) rest).
Proof.
  intros Hr. destruct (ordered_reachable w Hr) as (Hs & Hids & _ & Hn).
  split; [exact Hs|]. split.
  { apply Forall_forall. intros e He. rewrite Forall_forall in Hids.
    apply Hids, in_map, He. }
  split.
  - pose proof (sorted_interval_length _ 0 (nextID w) Hs Hids Hn) as Hl.
    rewrite length_map in Hl. lia.
  - intros tg rest Hts. rewrite Hts in Hs. cbn [map] in Hs.
    inversion Hs as [|? ? _ Hall]; subst.
    apply Forall_forall. intros e He. rewrite Forall_forall in Hall.
    apply Hall, in_map, He.
Qed.

(** X3.  In every reachable state the reference of a missile names an id
    that has been handed out, and if it locks, it locks a target of the
    collection that is active and carries that id; no other target of the
    collection carries it. *)
Theorem references_name_issued_targets (w : World) (m : DefenseMissile.t)
        (k : Z) :
  reachable w ->
  In m (defenseMissiles w) ->
  DefenseMissile.target m = Some k ->
  0 <= k < nextID w /\
  (forall tg, lock (enemyTargets w) (DefenseMissile.target m) = Some tg ->
     In tg (enemyTargets w) /\ EnemyTarget.id tg = k /\
     EnemyTarget.isActive tg = true /\
     (forall e, In e (enemyTargets w) -> EnemyTarget.id e = k -> e = tg)).
Proof.
  intros Hr Hin Hk.
  destruct (ordered_reachable w Hr) as (_ & _ & Hrefs & _).
  destruct (reachable_invariant w Hr) as [(Hnd & _) [Hact _]].
  rewrite Forall_forall in Hrefs. split; [apply (Hrefs m Hin k Hk)|].
  intros tg Hl. destruct (lock_In _ _ _ Hl) as [Htg Hwp].
  rewrite Hk in Hwp. injection Hwp as Hid.
  rewrite Forall_forall in Hact.
  split; [exact Htg|]. split; [congruence|]. split; [apply Hact, Htg|].
  intros e He Heid.
  apply (NoDup_map_In_eq EnemyTarget.id (enemyTargets w)); auto. congruence.
Qed.

(** ** The collision pass: what it deactivates *)

Lemma Forall2_compose {A : Type} (R1 R2 R3 : A -> A -> Prop)
      (l1 l2 l3 : list A) :
  (forall a b c, R1 a b -> R2 b c -> R3 a c) ->
  Forall2 R1 l1 l2 -> Forall2 R2 l2 l3 -> Forall2 R3 l1 l3.
Proof.
  intros HR H12. revert l3.
  induction H12; intros l3 H23; inversion H23; subst; constructor; eauto.
Qed.

Lemma active_store heap tg :
  lock heap (Some (EnemyTarget.id tg)) = Some tg ->
  EnemyTarget.isActive tg = true ->
  S (length (filter EnemyTarget.isActive
                    (store (EnemyTarget.setInactive tg) heap)))
  = length (filter EnemyTarget.isActive heap).
Proof.
  intros Hl Hact. cbn [lock] in Hl.
  induction heap as [|e heap IH]; cbn [find] in Hl; [discriminate|].
  cbn [store EnemyTarget.setInactive EnemyTarget.id].
  destruct (EnemyTarget.id e =? EnemyTarget.id tg).
  - injection Hl as ->. cbn [filter EnemyTarget.isActive].
    rewrite Hact. reflexivity.
  - cbn [filter]. destruct (EnemyTarget.isActive e); cbn [length];
      rewrite <- (IH Hl); reflexivity.
Qed.

Lemma store_only_target heap tg :
  lock heap (Some (EnemyTarget.id tg)) = Some tg ->
  Forall2 (fun a b => b = a \/ (b = EnemyTarget.setInactive a /\ a = tg))
          heap (store (EnemyTarget.setInactive tg) heap).
Proof.
  cbn [lock]. induction heap as [|e heap IH]; cbn [find store];
    [discriminate|].
  cbn [EnemyTarget.setInactive EnemyTarget.id].
  destruct (EnemyTarget.id e =? EnemyTarget.id tg).
  - intros [= ->]. constructor; [right; split; reflexivity|].
    apply Forall2_refl_on. left. reflexivity.
  - intros H. constructor; [left; reflexivity|auto].
Qed.

(** One iteration: either nothing changes, or the missile was active, its
    reference locked an active target within the radius, and exactly these
    two are deactivated. *)
Lemma collide_cases (m : DefenseMissile.t) (heap : list EnemyTarget.t) :
  collide m heap = (m, heap) \/
  exists tg,
    DefenseMissile.isActive m = true /\
    lock heap (DefenseMissile.target m) = Some tg /\
    EnemyTarget.isActive tg = true /\
    (distance2 m tg <? f225)%f32 = true /\
    collide m heap
    = (DefenseMissile.setInactive m,
       store (EnemyTarget.setInactive tg) heap).
Proof.
  unfold collide.
  destruct (DefenseMissile.isActive m) eqn:Ha; cbn [negb]; [|left; reflexivity].
  destruct (lock heap (DefenseMissile.target m)) as [tg|] eqn:Hl;
    [|left; reflexivity].
  destruct (EnemyTarget.isActive tg) eqn:Hta; cbn [negb]; [|left; reflexivity].
  destruct (distance2 m tg <? f225)%f32 eqn:Hd; [|left; reflexivity].
  right. exists tg. repeat split; try assumption; reflexivity.
Qed.

Lemma collisions_length ms heap :
  length (fst (collisions ms heap)) = length ms.
Proof.
  revert heap. induction ms as [|m ms IH]; intros heap; [reflexivity|].
  rewrite collisions_cons. cbn [fst length]. rewrite IH. reflexivity.
Qed.

Lemma collisions_counts ms heap :
  (length (filter DefenseMissile.isActive ms)
   + length (filter EnemyTarget.isActive (snd (collisions ms heap)))
   = length (filter DefenseMissile.isActive (fst (collisions ms heap)))
     + length (filter EnemyTarget.isActive heap))%nat.
Proof.
  revert heap. induction ms as [|m ms IH]; intros heap; [reflexivity|].
  rewrite collisions_cons. cbn [fst snd].
  specialize (IH (snd (collide m heap))).
  destruct (collide_cases m heap) as [Hc|(tg & Ha & Hl & Hta & _ & Hc)];
    rewrite Hc in *; cbn [fst snd] in *.
  - cbn [filter]. destruct (DefenseMissile.isActive m); cbn [length]; lia.
  - destruct (lock_In _ _ _ Hl) as [_ Hwp]. rewrite Hwp in Hl.
    pose proof (active_store heap tg Hl Hta) as Hs.
    cbn [filter DefenseMissile.setInactive DefenseMissile.isActive].
    rewrite Ha. cbn [length]. lia.
Qed.

Lemma deactivated_fewer_active (l l' : list EnemyTarget.t) :
  Forall2 deactivated l l' ->
  (length (filter EnemyTarget.isActive l')
   <= length (filter EnemyTarget.isActive l))%nat.
Proof.
  induction 1 as [|a b l l' Hab _ IH]; [apply le_n|].
  cbn [filter]. destruct Hab as [->| ->].
  - destruct (EnemyTarget.isActive a); cbn [length]; lia.
  - cbn [EnemyTarget.setInactive EnemyTarget.isActive].
    destruct (EnemyTarget.isActive a); cbn [length]; lia.
Qed.

(** X4.  In the collision pass hits come in pairs: the number of missiles
    the pass deactivates is the number of targets it deactivates, and it
    activates nothing. *)
Theorem collision_hits_pair_up (w : World) :
  let w' := collisionPass w in
  (length (filter DefenseMissile.isActive (defenseMissiles w))
   + length (filter EnemyTarget.isActive (enemyTargets w'))
   = length (filter DefenseMissile.isActive (defenseMissiles w'))
     + length (filter EnemyTarget.isActive (enemyTargets w)))%nat /\
  (length (filter EnemyTarget.isActive (enemyTargets w'))
   <= length (filter EnemyTarget.isActive (enemyTargets w)))%nat /\
  (length (filter DefenseMissile.isActive (defenseMissiles w'))
   <= length (filter DefenseMissile.isActive (defenseMissiles w)))%nat.
Proof.
  cbv zeta. destruct (collisionPass_fields w) as [-> ->].
  pose proof (collisions_counts (defenseMissiles w) (enemyTargets w)) as Hc.
  destruct (collisions_spec (defenseMissiles w) (enemyTargets w)) as [_ Hh].
  pose proof (deactivated_fewer_active _ _ Hh) as Hle.
  split; [exact Hc|]. split; [exact Hle|]. lia.
Qed.

(** X5.  The pass deactivates a missile only on contact: if the missile at
    some place of the collection is active before the pass and inactive
    after it, then, when the loop reached it, its reference locked an
    active target at squared distance below 225. *)
Theorem missile_deactivated_only_on_contact
        (pre post : list DefenseMissile.t) (m : DefenseMissile.t)
        (heap : list EnemyTarget.t) :
  let heap1 := snd (collisions pre heap) in
  let m' := nth (length pre) (fst (collisions (pre ++ m :: post) heap)) m in
  DefenseMissile.isActive m = true ->
  DefenseMissile.isActive m' = false ->
  exists tg,
    lock heap1 (DefenseMissile.target m) = Some tg /\
    EnemyTarget.isActive tg = true /\
    (distance2 m tg <? f225)%f32 = true /\
    m' = DefenseMissile.setInactive m.
Proof.
  cbv zeta. rewrite collisions_app, collisions_cons. cbn [fst snd].
  rewrite app_nth2; rewrite collisions_length; [|apply le_n].
  rewrite Nat.sub_diag. cbn [nth].
  intros Ha Hi.
  destruct (collide_cases m (snd (collisions pre heap)))
    as [Hc|(tg & _ & Hl & Hta & Hd & Hc)]; rewrite Hc in *; cbn [fst] in *.
  - congruence.
  - exists tg. repeat split; assumption.
Qed.

Lemma collide_targets (m : DefenseMissile.t) (heap : list EnemyTarget.t) :
  Forall2 (fun a b =>
             b = a \/
             (b = EnemyTarget.setInactive a /\
              EnemyTarget.isActive a = true /\
              DefenseMissile.isActive m = true /\
              DefenseMissile.target m = Some (EnemyTarget.id a) /\
              (distance2 m a <? f225)%f32 = true))
          heap (snd (collide m heap)).
Proof.
  destruct (collide_cases m heap) as [Hc|(tg & Ha & Hl & Hta & Hd & Hc)];
    rewrite Hc; cbn [snd].
  - apply Forall2_refl_on. left. reflexivity.
  - destruct (lock_In _ _ _ Hl) as [_ Hwp]. rewrite Hwp in Hl.
    eapply Forall2_impl; [|apply (store_only_target heap tg Hl)].
    cbv beta. intros a b [->|[-> ->]]; [left; reflexivity|].
    right. repeat split; assumption.
Qed.

(** X6.  The pass deactivates a target only on contact: every target of
    the collection is left as it was, or it was active and is deactivated,
    and then an active missile of the collection that refers to it was at
    squared distance below 225 from it. *)
Theorem target_deactivated_only_on_contact (w : World) :
  Forall2 (fun a b =>
             b = a \/
             (b = EnemyTarget.setInactive a /\
              EnemyTarget.isActive a = true /\
              exists m,
                In m (defenseMissiles w) /\
                DefenseMissile.isActive m = true /\
                DefenseMissile.target m = Some (EnemyTarget.id a) /\
                (distance2 m a <? f225)%f32 = true))
          (enemyTargets w) (enemyTargets (collisionPass w)).
Proof.
  destruct (collisionPass_fields w) as [_ ->].
  generalize (enemyTargets w) as heap.
  induction (defenseMissiles w) as [|m ms IH]; intros heap.
  - cbn [collisions snd]. apply Forall2_refl_on. left. reflexivity.
  - rewrite collisions_cons. cbn [snd].
    eapply Forall2_compose;
      [|apply (collide_targets m heap)|apply (IH (snd (collide m heap)))].
    cbv beta.
    intros a b c [->|(-> & Ha & Hm & Ht & Hd)] Hbc.
    + destruct Hbc as [->|(-> & Hb & m' & Hin & Hrest)];
        [left; reflexivity|].
      right. split; [reflexivity|]. split; [exact Hb|].
      exists m'. split; [right; exact Hin|exact Hrest].
    + destruct Hbc as [->|(_ & Hb & _)]; [|discriminate Hb].
      right. split; [reflexivity|]. split; [exact Ha|].
      exists m. split; [left; reflexivity|]. repeat split; assumption.
Qed.

(** ** A tick keeps the order and adds nothing *)

Lemma Subseq_length {A : Type} (l1 l2 : list A) :
  Subseq l1 l2 -> (length l1 <= length l2)%nat.
Proof. induction 1; cbn [length]; lia. Qed.

Lemma Subseq_active_targets (l l' : list EnemyTarget.t) :
  Forall2 deactivated l l' -> Subseq (filter EnemyTarget.isActive l') l.
Proof.
  induction 1 as [|a b l l' Hab _ IH]; [constructor|].
  cbn [filter]. destruct Hab as [->| ->].
  - destruct (EnemyTarget.isActive a); constructor; exact IH.
  - cbn [EnemyTarget.setInactive EnemyTarget.isActive]. constructor. exact IH.
Qed.

Lemma Subseq_active_missiles (l l' : list DefenseMissile.t) :
  Forall2 mdeactivated l l' -> Subseq (filter DefenseMissile.isActive l') l.
Proof.
  induction 1 as [|a b l l' Hab _ IH]; [constructor|].
  cbn [filter]. destruct Hab as [->| ->].
  - destruct (DefenseMissile.isActive a); constructor; exact IH.
  - cbn [DefenseMissile.setInactive DefenseMissile.isActive].
    constructor. exact IH.
Qed.

(** X7.  After [updateEntities] the target collection is the list of the
    updated targets with some left out, and the missile collection the
    list of the updated missiles with some left out: the tick adds no
    entity, keeps the order of the survivors, and the collision pass has
    changed no survivor. *)
Theorem tick_keeps_order_and_adds_nothing (deltaTime : float) (w : World) :
  let ts1 := map (EnemyTarget.update deltaTime) (enemyTargets w) in
  let ms1 :=
    map (fun m =>
           DefenseMissile.update (lock ts1 (DefenseMissile.target m))
                                 deltaTime m)
        (defenseMissiles w) in
  let w' := updateEntities deltaTime w in
  Subseq (enemyTargets w') ts1 /\
  Subseq (defenseMissiles w') ms1 /\
  (length (enemyTargets w') <= length (enemyTargets w))%nat /\
  (length (defenseMissiles w') <= length (defenseMissiles w))%nat.
Proof.
  intros ts1 ms1 w'.
  assert (Ht : Subseq (enemyTargets w') ts1).
  { destruct (targets_updateEntities deltaTime w) as (ts2 & Hd & Heq).
    unfold w'. rewrite Heq. apply Subseq_active_targets. exact Hd. }
  assert (Hm : Subseq (defenseMissiles w') ms1).
  { unfold w', updateEntities, compaction. cbn [defenseMissiles].
    destruct (collisionPass_fields (updateAll deltaTime w)) as [-> _].
    apply Subseq_active_missiles.
    destruct (collisions_spec (defenseMissiles (updateAll deltaTime w))
                              (enemyTargets (updateAll deltaTime w)))
      as [Hspec _].
    eapply Forall2_impl; [|exact Hspec]. cbv beta. intros a b [Hab _].
    exact Hab. }
  split; [exact Ht|]. split; [exact Hm|]. split.
  - apply Subseq_length in Ht. unfold ts1 in Ht. rewrite length_map in Ht.
    exact Ht.
  - apply Subseq_length in Hm. unfold ms1 in Hm. rewrite length_map in Hm.
    exact Hm.
Qed.

(** ** Live missiles are inside the field *)

Lemma reachable_step ev w w' :
  reachable w -> step ev w = Some w' -> reachable w'.
Proof.
  intros [evs Hr] Hs. exists (evs ++ [ev]).
  eapply run_app; [exact Hr|]. cbn [run]. rewrite Hs. reflexivity.
Qed.

(** Induction over the reachable states. *)
Lemma reachable_invariant_ind (P : World -> Prop) :
  P initial ->
  (forall ev w w', reachable w -> P w -> step ev w = Some w' -> P w') ->
  forall w, reachable w -> P w.
Proof.
  intros H0 Hstep w [evs Hr].
  assert (Hgen : forall evs w0, reachable w0 -> P w0 ->
                                run evs w0 = Some w -> P w).
  { clear evs Hr. induction evs as [|ev evs IH]; cbn [run]; intros w0 Hr0 Hp.
    - intros [= <-]. exact Hp.
    - destruct (step ev w0) as [w1|] eqn:Hs; [|discriminate].
      apply IH; [eapply reachable_step|eapply Hstep]; eassumption. }
  apply (Hgen evs initial); [exists []; reflexivity|exact H0|exact Hr].
Qed.

Lemma update_active_inside st dt m :
  DefenseMissile.isActive (DefenseMissile.update st dt m) = true ->
  DefenseMissile.outside
    (DefenseMissile.x (DefenseMissile.update st dt m))
    (DefenseMissile.y (DefenseMissile.update st dt m)) = false.
Proof.
  unfold DefenseMissile.update.
  match goal with
  | |- context [if DefenseMissile.outside ?a ?b then _ else _] =>
      destruct (DefenseMissile.outside a b) eqn:Hout
  end.
  - cbn [DefenseMissile.setInactive DefenseMissile.isActive]. discriminate.
  - intros _. cbn [DefenseMissile.set_position DefenseMissile.x
                   DefenseMissile.y]. exact Hout.
Qed.

Lemma inside_launchMissile tg w :
  Forall (fun m => DefenseMissile.outside (DefenseMissile.x m)
                                          (DefenseMissile.y m) = false)
         (defenseMissiles w) ->
  Forall (fun m => DefenseMissile.outside (DefenseMissile.x m)
                                          (DefenseMissile.y m) = false)
         (defenseMissiles (launchMissile sensorX sensorY tg w)).
Proof.
  intros H. cbn [launchMissile defenseMissiles].
  apply Forall_app. split; [exact H|].
  constructor; [|constructor].
  destruct (DefenseMissile_new_fields sensorX sensorY tg missileSpeed
                                      (nextSerial w)) as (-> & -> & _).
  vm_compute. reflexivity.
Qed.

(** X8.  In every reachable state every missile of the collection is
    inside the field: none of the four bounds tests of
    [DefenseMissile::update] holds of its position. *)
Theorem live_missiles_inside_field (w : World) :
  reachable w ->
  Forall (fun m =>
            (DefenseMissile.x m <? f0)%f32 = false /\
            (DefenseMissile.x m >? SCREEN_WIDTH)%f32 = false /\
            (DefenseMissile.y m <? f0)%f32 = false /\
            (DefenseMissile.y m >? SCREEN_HEIGHT)%f32 = false)
         (defenseMissiles w).
Proof.
  intros Hr.
  assert (H : Forall (fun m => DefenseMissile.outside
                                 (DefenseMissile.x m) (DefenseMissile.y m)
                               = false)
                     (defenseMissiles w)).
  { revert w Hr. apply reachable_invariant_ind.
    - constructor.
    - intros ev w w' _ Hp Hs. destruct ev; cbn [step] in Hs.
      + unfold spawnTarget in Hs.
        destruct (EnemyTarget.new _ _ _ _ _) as [[e n]|]; [|discriminate].
        injection Hs as <-. exact Hp.
      + injection Hs as <-. unfold detectionTask. rewrite detectionLoop_find.
        destruct (find detected (enemyTargets w)); [|exact Hp].
        apply inside_launchMissile, Hp.
      + injection Hs as <-. apply Forall_forall. intros m' Hin.
        destruct (updateEntities_survivor _ _ _ Hin) as (m & _ & Heq).
        destruct (settled_compaction
                    (collisionPass (updateAll deltaTime w))) as [_ Hact].
        rewrite Forall_forall in Hact. specialize (Hact m' Hin).
        rewrite Heq in *. apply update_active_inside. exact Hact.
      + injection Hs as <-. unfold keySpace.
        destruct (enemyTargets w); [exact Hp|].
        apply (inside_launchMissile _ w Hp). }
  eapply Forall_impl; [|exact H]. cbv beta. intros m Hout.
  unfold DefenseMissile.outside in Hout.
  apply orb_false_elim in Hout. destruct Hout as [Hout H4].
  apply orb_false_elim in Hout. destruct Hout as [Hout H3].
  apply orb_false_elim in Hout. destruct Hout as [H1 H2].
  auto.
Qed.

(** ** Detection does not remember what it has engaged *)

Lemma find_first {A : Type} (p : A -> bool) (pre : list A) (a : A)
      (post : list A) :
  Forall (fun e => p e = false) pre -> p a = true ->
  find p (pre ++ a :: post) = Some a.
Proof.
  induction 1 as [|e pre He _ IH]; cbn [app find]; intros Ha.
  - rewrite Ha. reflexivity.
  - rewrite He. auto.
Qed.

(** X9.  [detectionTask] keeps no record of the targets it has engaged:
    while [tg] is the first target within range, [n] calls in a row leave
    the targets alone and append [n] missiles, each launched from the
    sensor at [tg]. *)
Theorem repeated_detection_repeats_launch
        (n : nat) (w : World) (pre post : list EnemyTarget.t)
        (tg : EnemyTarget.t) :
  enemyTargets w = pre ++ tg :: post ->
  Forall (fun e => detected e = false) pre ->
  detected tg = true ->
  let w' := Nat.iter n detectionTask w in
  let added :=
    map (fun i => DefenseMissile.new sensorX sensorY tg missileSpeed
                                     (nextSerial w + i))
        (seq 0 n) in
  enemyTargets w' = enemyTargets w /\
  nextID w' = nextID w /\
  defenseMissiles w' = defenseMissiles w ++ added /\
  length added = n /\
  Forall (fun m => DefenseMissile.target m = Some (EnemyTarget.id tg) /\
                   DefenseMissile.x m = sensorX /\
                   DefenseMissile.y m = sensorY /\
                   DefenseMissile.isActive m = true)
         added.
Proof.
  intros Hts Hpre Htg w' added.
  assert (Hiter : enemyTargets w' = enemyTargets w /\
                  nextID w' = nextID w /\
                  nextSerial w' = (nextSerial w + n)%nat /\
                  defenseMissiles w' = defenseMissiles w ++ added).
  { unfold w', added. clear w' added. induction n as [|n IH].
    - change (Nat.iter 0 detectionTask w) with w. cbn [seq map].
      rewrite app_nil_r, Nat.add_0_r. auto.
    - destruct IH as (IHt & IHn & IHs & IHm).
      rewrite Nat.iter_succ. set (wn := Nat.iter n detectionTask w) in *.
      assert (Hd : detectionTask wn = launchMissile sensorX sensorY tg wn).
      { unfold detectionTask. rewrite detectionLoop_find, IHt, Hts.
        rewrite (find_first detected pre tg post Hpre Htg). reflexivity. }
      rewrite Hd. cbn [launchMissile enemyTargets nextID nextSerial
                                     defenseMissiles].
      split; [exact IHt|]. split; [exact IHn|]. split; [lia|].
      rewrite IHm, IHs, seq_S, map_app, <- app_assoc. reflexivity. }
  destruct Hiter as (Ht & Hn & _ & Hm).
  split; [exact Ht|]. split; [exact Hn|]. split; [exact Hm|].
  split; [unfold added; rewrite length_map, length_seq; reflexivity|].
  unfold added. apply Forall_map, Forall_forall. intros i _.
  destruct (DefenseMissile_new_fields sensorX sensorY tg missileSpeed
                                      (nextSerial w + i))
    as (Hx & Hy & _ & Ha & Htt & _).
  auto.
Qed.

(** ** Homing steers toward the target *)

Lemma round_aux_sign (s : bool) (m e : Z) (l : location) :
  has_sign s (binary_round_aux F32.prec F32.emax s m e l) = true.
Proof.
  unfold binary_round_aux.
  destruct (shr_fexp F32.prec F32.emax m e l) as [mrs e'].
  destruct (shr_fexp F32.prec F32.emax _ e' loc_Exact) as [mrs'' e''].
  destruct (shr_m mrs'').
  - cbn [has_sign]. apply Bool.eqb_reflx.
  - destruct (e'' <=? F32.emax - F32.prec); cbn [has_sign];
      apply Bool.eqb_reflx.
  - reflexivity.
Qed.

Lemma div_sign (s : bool) (a d : float) :
  strictly s a = true -> strictly false d = true ->
  has_sign s (a / d)%f32 = true.
Proof.
  unfold F32.div.
  destruct a as [sa|sa| |sa ma ea], d as [sd|sd| |sd md ed];
    cbn [strictly]; intros Ha Hd; try discriminate;
    apply Bool.eqb_prop in Ha; apply Bool.eqb_prop in Hd; subst;
    cbn [SFdiv]; rewrite ?xorb_false_r.
  - reflexivity.
  - cbn [has_sign]. apply Bool.eqb_reflx.
  - cbn [has_sign]. apply Bool.eqb_reflx.
  - destruct (SFdiv_core_binary F32.prec F32.emax (Z.pos ma) ea (Z.pos md) ed)
      as [[mz ez] lz].
    apply round_aux_sign.
Qed.

Lemma mul_sign (s : bool) (q sp : float) :
  has_sign s q = true -> strictly false sp = true ->
  has_sign s (q * sp)%f32 = true.
Proof.
  unfold F32.mul.
  destruct q as [sq|sq| |sq mq eq], sp as [ss|ss| |ss ms es];
    cbn [strictly has_sign]; intros Hq Hs; try discriminate;
    try reflexivity;
    apply Bool.eqb_prop in Hs; subst; try (apply Bool.eqb_prop in Hq; subst);
    cbn [SFmul]; rewrite ?xorb_false_r;
    try reflexivity; try (cbn [has_sign]; apply Bool.eqb_reflx).
  apply round_aux_sign.
Qed.

Lemma gtb_zero_strictly (a : float) :
  (a >? f0)%f32 = true -> strictly false a = true.
Proof.
  destruct a as [s|s| |s m e]; cbn; intros H; try discriminate;
    destruct s; try discriminate; reflexivity.
Qed.

Lemma ltb_zero_strictly (a : float) :
  (a <? f0)%f32 = true -> strictly true a = true.
Proof.
  destruct a as [s|s| |s m e]; cbn; intros H; try discriminate;
    destruct s; try discriminate; reflexivity.
Qed.

Lemma gtb_epsilon_strictly (d : float) :
  (d >? epsilon)%f32 = true -> strictly false d = true.
Proof.
  destruct d as [s|s| |s m e]; cbn; intros H; try discriminate;
    destruct s; try discriminate; reflexivity.
Qed.

Lemma has_sign_not_negative (a : float) :
  has_sign false a = true -> (a <? f0)%f32 = false.
Proof.
  destruct a as [s|s| |s m e]; cbn; intros H; try reflexivity;
    destruct s; try discriminate; reflexivity.
Qed.

Lemma has_sign_not_positive (a : float) :
  has_sign true a = true -> (a >? f0)%f32 = false.
Proof.
  destruct a as [s|s| |s m e]; cbn; intros H; try reflexivity;
    destruct s; try discriminate; reflexivity.
Qed.

(** X10.  When [updateVelocity] recomputes the velocity (the target is
    locked and farther than [0.01f]) of a missile of positive speed, the
    new velocity never points away from the target along an axis: if the
    target is to the right the x component is not negative, if it is to
    the left it is not positive, and the same for y. *)
Theorem homing_steers_toward_target
        (tg : EnemyTarget.t) (m : DefenseMissile.t) :
  let dx := (EnemyTarget.x tg - DefenseMissile.x m)%f32 in
  let dy := (EnemyTarget.y tg - DefenseMissile.y m)%f32 in
  let m' := DefenseMissile.updateVelocity (Some tg) m in
  (direction_magnitude tg m >? epsilon)%f32 = true ->
  (DefenseMissile.speed m >? f0)%f32 = true ->
  ((dx >? f0)%f32 = true -> (DefenseMissile.velocityX m' <? f0)%f32 = false) /\
  ((dx <? f0)%f32 = true -> (DefenseMissile.velocityX m' >? f0)%f32 = false) /\
  ((dy >? f0)%f32 = true -> (DefenseMissile.velocityY m' <? f0)%f32 = false) /\
  ((dy <? f0)%f32 = true -> (DefenseMissile.velocityY m' >? f0)%f32 = false).
Proof.
  intros dx dy m' Hd Hsp.
  pose proof (gtb_epsilon_strictly _ Hd) as Hdpos.
  pose proof (gtb_zero_strictly _ Hsp) as Hspos.
  assert (Hvx : DefenseMissile.velocityX m'
                = ((dx / direction_magnitude tg m) * DefenseMissile.speed m)%f32
                /\ DefenseMissile.velocityY m'
                = ((dy / direction_magnitude tg m) * DefenseMissile.speed m)%f32).
  { unfold m', DefenseMissile.updateVelocity, DefenseMissile.updateVelocity_divs.
    cbv zeta. fold dx. fold dy.
    change (F32.sqrt (dx * dx + dy * dy)%f32) with (direction_magnitude tg m).
    rewrite Hd. split; reflexivity. }
  destruct Hvx as [-> ->].
  repeat split; intros H.
  - apply has_sign_not_negative, mul_sign; [|exact Hspos].
    apply div_sign; [apply gtb_zero_strictly, H|exact Hdpos].
  - apply has_sign_not_positive, mul_sign; [|exact Hspos].
    apply div_sign; [apply ltb_zero_strictly, H|exact Hdpos].
  - apply has_sign_not_negative, mul_sign; [|exact Hspos].
    apply div_sign; [apply gtb_zero_strictly, H|exact Hdpos].
  - apply has_sign_not_positive, mul_sign; [|exact Hspos].
    apply div_sign; [apply ltb_zero_strictly, H|exact Hdpos].
Qed.

(** ** The targets of [main] stay in their lanes *)

(** A property checked on 0 .. n-1 holds of every integer of that range. *)
Lemma range_forallb (p : Z -> bool) (n : nat) :
  forallb p (map Z.of_nat (seq 0 n)) = true ->
  forall k, 0 <= k < Z.of_nat n -> p k = true.
Proof.
  intros H k Hk. rewrite forallb_forall in H. apply H.
  apply in_map_iff. exists (Z.to_nat k). split; [lia|].
  apply in_seq. lia.
Qed.

Lemma lane_y_facts (k : Z) :
  0 <= k < 600 ->
  (F32.of_Z k <? f0)%f32 = false /\
  (F32.of_Z k >? SCREEN_HEIGHT)%f32 = false /\
  F32.is_zero (F32.of_Z k) = Z.eqb k 0 /\
  F32.of_Z k <> S754_zero true.
Proof.
  intros Hk.
  pose proof (range_forallb
                (fun k => negb (F32.of_Z k <? f0)%f32
                          && negb (F32.of_Z k >? SCREEN_HEIGHT)%f32
                          && Bool.eqb (F32.is_zero (F32.of_Z k)) (Z.eqb k 0)
                          && negb (match F32.of_Z k with
                                   | S754_zero true => true
                                   | _ => false
                                   end))
                600 ltac:(vm_compute; reflexivity) k Hk) as H.
  cbv beta in H.
  apply andb_prop in H. destruct H as [H H4].
  apply andb_prop in H. destruct H as [H H3].
  apply andb_prop in H. destruct H as [H1 H2].
  apply negb_true_iff in H1, H2, H4. apply Bool.eqb_prop in H3.
  repeat split; try assumption.
  intros Heq. rewrite Heq in H4. discriminate H4.
Qed.

Lemma lane_speed_facts (j : Z) :
  0 <= j < 50 ->
  strictly false (f50 + F32.of_Z j)%f32 = true /\
  (f50 + F32.of_Z j >=? f50)%f32 = true /\
  (f50 + F32.of_Z j <? F32.of_Z 100)%f32 = true.
Proof.
  intros Hj.
  pose proof (range_forallb
                (fun j => strictly false (f50 + F32.of_Z j)%f32
                          && (f50 + F32.of_Z j >=? f50)%f32
                          && (f50 + F32.of_Z j <? F32.of_Z 100)%f32)
                50 ltac:(vm_compute; reflexivity) j Hj) as H.
  cbv beta in H.
  apply andb_prop in H. destruct H as [H H3].
  apply andb_prop in H. destruct H as [H1 H2].
  auto.
Qed.

Lemma add_zero_r (a : float) :
  a <> S754_zero true -> (a + f0)%f32 = a.
Proof.
  destruct a as [s|s| |s m e]; intros Ha; try reflexivity.
  destruct s; [contradiction Ha; reflexivity|reflexivity].
Qed.

Lemma binary_round_sign (s : bool) (m : positive) (e : Z) :
  has_sign s (binary_round F32.prec F32.emax s m e) = true.
Proof.
  unfold binary_round.
  destruct (shl_align m e _) as [mz ez]. apply round_aux_sign.
Qed.

(** The sum of two numbers that are not negative is not negative. *)
Lemma add_sign (a b : float) :
  has_sign false a = true -> has_sign false b = true ->
  has_sign false (a + b)%f32 = true.
Proof.
  unfold F32.add.
  destruct a as [sa|sa| |sa ma ea], b as [sb|sb| |sb mb eb];
    cbn [has_sign]; intros Ha Hb; try reflexivity;
    apply Bool.eqb_prop in Ha; apply Bool.eqb_prop in Hb; subst;
    try reflexivity.
  cbn [SFadd cond_Zopp].
  match goal with
  | |- context [Z.add (Z.pos ?p) (Z.pos ?q)] =>
      change (Z.add (Z.pos p) (Z.pos q)) with (Z.pos (p + q))
  end.
  cbn [binary_normalize]. apply binary_round_sign.
Qed.

Lemma EnemyTarget_update_fields (dt : float) (e : EnemyTarget.t) :
  let e' := EnemyTarget.update dt e in
  EnemyTarget.x e' = (EnemyTarget.x e + EnemyTarget.speedX e * dt)%f32 /\
  EnemyTarget.y e' = (EnemyTarget.y e + EnemyTarget.speedY e * dt)%f32 /\
  EnemyTarget.speedX e' = EnemyTarget.speedX e /\
  EnemyTarget.speedY e' = EnemyTarget.speedY e /\
  EnemyTarget.isActive e'
  = EnemyTarget.isActive e
    && negb ((EnemyTarget.x e' >? SCREEN_WIDTH)
             || (EnemyTarget.y e' <? f0)
             || (EnemyTarget.y e' >? SCREEN_HEIGHT))%f32.
Proof.
  unfold EnemyTarget.update.
  match goal with
  | |- context [if ?c then _ else _] => destruct c eqn:Hc
  end;
    cbn [EnemyTarget.setInactive EnemyTarget.x EnemyTarget.y
         EnemyTarget.speedX EnemyTarget.speedY EnemyTarget.isActive];
    rewrite Hc; cbn [negb];
    repeat split; rewrite ?andb_false_r, ?andb_true_r; reflexivity.
Qed.

(** One tick of 1/60 s on a target in its lane. *)
Lemma lane_update (e : EnemyTarget.t) :
  lane_invariant e ->
  let e' := EnemyTarget.update (f1 / FPS)%f32 e in
  in_lane e' /\
  has_sign false (EnemyTarget.x e') = true /\
  EnemyTarget.y e' = EnemyTarget.y e /\
  EnemyTarget.isActive e'
  = EnemyTarget.isActive e && negb (EnemyTarget.x e' >? SCREEN_WIDTH)%f32.
Proof.
  intros ((Hsy & (k & Hk & Hy) & (j & Hj & Hsx)) & Hx & _) e'.
  destruct (EnemyTarget_update_fields (f1 / FPS)%f32 e)
    as (Hx' & Hy' & Hsx' & Hsy' & Hact).
  fold e' in Hx', Hy', Hsx', Hsy', Hact.
  destruct (lane_y_facts k Hk) as (Hy1 & Hy2 & _ & Hnz).
  destruct (lane_speed_facts j Hj) as (Hpos & _).
  assert (Hyeq : EnemyTarget.y e' = EnemyTarget.y e).
  { rewrite Hy', Hsy.
    change (f0 * (f1 / FPS))%f32 with f0.
    apply add_zero_r. rewrite Hy. exact Hnz. }
  split; [|split; [|split]].
  - unfold in_lane. rewrite Hsy', Hsx', Hyeq. split; [exact Hsy|].
    split; [exists k|exists j]; auto.
  - rewrite Hx'. apply add_sign; [exact Hx|].
    apply mul_sign; [|vm_compute; reflexivity].
    rewrite Hsx. destruct (f50 + F32.of_Z j)%f32; cbn in Hpos |- *;
      try discriminate; exact Hpos.
  - exact Hyeq.
  - rewrite Hact, Hyeq, Hy, Hy1, Hy2, !orb_false_r. reflexivity.
Qed.

Lemma lane_run evs w w' :
  Forall lane_event evs -> run evs w = Some w' ->
  Forall lane_invariant (enemyTargets w) ->
  Forall lane_invariant (enemyTargets w').
Proof.
  intros Hev. revert w. induction Hev as [|ev evs He _ IH]; cbn [run];
    intros w.
  - intros [= <-]. auto.
  - destruct (step ev w) as [w1|] eqn:Hs; [|discriminate].
    intros Hr Hw. apply (IH w1 Hr). clear IH Hr.
    destruct ev; cbn [step lane_event] in Hs, He.
    + destruct He as (-> & -> & Hy & Hx).
      unfold spawnTarget, EnemyTarget.new in Hs.
      destruct (nextID w <? INT_MAX); [|discriminate].
      injection Hs as <-. cbn [enemyTargets].
      apply Forall_app. split; [exact Hw|].
      constructor; [|constructor].
      unfold lane_invariant, in_lane.
      cbn [EnemyTarget.x EnemyTarget.y EnemyTarget.speedX EnemyTarget.speedY].
      repeat split; auto.
    + injection Hs as <-.
      destruct (targets_detectionTask w) as [-> _]. exact Hw.
    + injection Hs as <-. subst deltaTime.
      destruct (targets_updateEntities (f1 / FPS)%f32 w) as (ts2 & Hd & ->).
      apply Forall_forall. intros e' Hin. apply filter_In in Hin.
      destruct Hin as [Hin Hact].
      destruct (Forall2_In_r _ _ _ _ Hd Hin) as (e1 & Hin1 & Hde).
      assert (e' = e1).
      { destruct Hde as [->| ->]; [reflexivity|discriminate Hact]. }
      subst e'. apply in_map_iff in Hin1. destruct Hin1 as (e & <- & Hin0).
      rewrite Forall_forall in Hw. specialize (Hw e Hin0).
      destruct (lane_update e Hw) as (Hl & Hx & _ & Hflag).
      split; [exact Hl|]. split; [exact Hx|].
      rewrite Hflag in Hact. apply andb_prop in Hact.
      destruct Hact as [_ Hact]. apply negb_true_iff in Hact. exact Hact.
    + injection Hs as <-.
      destruct (targets_keySpace w) as [-> _]. exact Hw.
Qed.

Lemma lane_operations i s : rand_ok i -> Forall lane_event (operations i s).
Proof.
  destruct i as [rand1 rand2|]; cbn [rand_ok operations].
  - intros [H1 H2]. cbv zeta.
    apply Forall_app. split; [|apply Forall_app; split].
    + destruct (_ >=? enemySpawnInterval)%f32; constructor; [|constructor].
      cbn [lane_event]. split; [reflexivity|]. split; [reflexivity|]. split.
      * exists (Z.rem rand1 600). split; [|reflexivity].
        apply Z.rem_bound_pos; lia.
      * exists (Z.rem rand2 50). split; [|reflexivity].
        apply Z.rem_bound_pos; lia.
    + destruct (_ >=? detectionInterval)%f32; constructor; [|constructor].
      exact I.
    + constructor; [reflexivity|constructor].
  - intros _. constructor; [exact I|constructor].
Qed.

Lemma lane_main_operations ins s :
  Forall rand_ok ins -> Forall lane_event (main_operations ins s).
Proof.
  intros H. revert s. induction H as [|i ins Hi _ IH]; intros s;
    cbn [main_operations]; [constructor|].
  destruct (handle i s) as [s'|]; [|constructor].
  apply Forall_app. split; [apply lane_operations, Hi|apply IH].
Qed.

(** X11.  In the event loop of [main], on inputs whose random values are
    not negative, every target of the collection is in its lane: its
    vertical speed is 0, its [y] is one of 0 .. 599, its [speedX] is 50 plus
    one of 0 .. 49, hence at least 50 and below 100, and its position is
    inside the field.  A tick leaves its [y] as it is, and its update
    deactivates it only through the right edge. *)
Theorem main_targets_stay_in_lane (ins : list input) (s : MainLoop) :
  Forall rand_ok ins ->
  main_loop ins main_initial = Some s ->
  Forall (fun e =>
            in_lane e /\
            (EnemyTarget.speedX e >=? f50)%f32 = true /\
            (EnemyTarget.speedX e <? F32.of_Z 100)%f32 = true /\
            (EnemyTarget.x e <? f0)%f32 = false /\
            (EnemyTarget.x e >? SCREEN_WIDTH)%f32 = false /\
            (EnemyTarget.y e <? f0)%f32 = false /\
            (EnemyTarget.y e >? SCREEN_HEIGHT)%f32 = false /\
            let e' := EnemyTarget.update (f1 / FPS)%f32 e in
            EnemyTarget.y e' = EnemyTarget.y e /\
            EnemyTarget.isActive e'
            = EnemyTarget.isActive e
              && negb (EnemyTarget.x e' >? SCREEN_WIDTH)%f32)
         (enemyTargets (world s)).
Proof.
  intros Hok Hm.
  assert (H : Forall lane_invariant (enemyTargets (world s))).
  { apply (lane_run (main_operations ins main_initial) initial (world s)).
    - apply lane_main_operations, Hok.
    - apply (main_loop_run ins main_initial s Hm).
    - constructor. }
  eapply Forall_impl; [|exact H]. cbv beta.
  intros e He. pose proof He as (Hl & Hx1 & Hx2).
  pose proof Hl as (_ & (k & Hk & Hy) & (j & Hj & Hsx)).
  destruct (lane_y_facts k Hk) as (Hy1 & Hy2 & _).
  destruct (lane_speed_facts j Hj) as (_ & Hs1 & Hs2).
  destruct (lane_update e He) as (_ & _ & Hyeq & Hflag).
  rewrite Hy, Hsx.
  split; [exact Hl|].
  split; [exact Hs1|]. split; [exact Hs2|].
  split; [apply has_sign_not_negative, Hx1|].
  split; [exact Hx2|]. split; [exact Hy1|]. split; [exact Hy2|].
  cbv zeta. rewrite <- Hy. split; [exact Hyeq|exact Hflag].
Qed.

(** ** Drawing *)

Lemma predictionLoop_step fuel x y speedX speedY t :
  (t <? predictionTime)%f32 = true ->
  predictionLoop (S fuel) x y speedX speedY t
  = match predictionLoop fuel (x + speedX * predictionStep)%f32
                         (y + speedY * predictionStep)%f32 speedX speedY
                         (t + predictionStep)%f32 with
    | Some rest =>
        Some (FilledCircle (x + speedX * predictionStep)%f32
                           (y + speedY * predictionStep)%f32 f2 (255, 255, 0)
              :: rest)
    | None => None
    end.
Proof. intros H. cbn [predictionLoop]. rewrite H. reflexivity. Qed.

Lemma predictionLoop_stop fuel x y speedX speedY t :
  (t <? predictionTime)%f32 = false ->
  predictionLoop fuel x y speedX speedY t = Some [].
Proof. intros H. destruct fuel; cbn [predictionLoop]; rewrite H; reflexivity. Qed.

Lemma predictionLoop_out_of_fuel x y speedX speedY t :
  (t <? predictionTime)%f32 = true ->
  predictionLoop 0 x y speedX speedY t = None.
Proof. intros H. cbn [predictionLoop]. rewrite H. reflexivity. Qed.

(** The time after [k] iterations of the loop. *)
Lemma prediction_times :
  forallb (fun k => (Nat.iter k (fun t => t + predictionStep)%f32 f0
                     <? predictionTime)%f32)
          (seq 0 10) = true /\
  (Nat.iter 10 (fun t => t + predictionStep)%f32 f0 <? predictionTime)%f32
  = false.
Proof. split; vm_compute; reflexivity. Qed.

(** From the time after [k] iterations the loop runs [10 - k] more. *)
Lemma predictionLoop_from (k : nat) :
  (k <= 10)%nat ->
  forall fuel x y speedX speedY,
    predictionLoop fuel x y speedX speedY
                   (Nat.iter k (fun t => t + predictionStep)%f32 f0)
    = if (10 - k <=? fuel)%nat
      then Some (map (fun p => FilledCircle (fst p) (snd p) f2 (255, 255, 0))
                     (predicted (10 - k) x y speedX speedY))
      else None.
Proof.
  destruct prediction_times as [Hlt Hstop].
  rewrite forallb_forall in Hlt.
  intros Hk. remember (10 - k)%nat as r eqn:Hr.
  revert k Hk Hr. induction r as [|r IH]; intros k Hk Hr fuel x y sx sy.
  - assert (k = 10%nat) by lia. subst k.
    rewrite (predictionLoop_stop _ _ _ _ _ _ Hstop). reflexivity.
  - assert (Hin : In k (seq 0 10)) by (apply in_seq; lia).
    specialize (Hlt k Hin). cbv beta in Hlt.
    destruct fuel as [|fuel].
    + rewrite (predictionLoop_out_of_fuel _ _ _ _ _ Hlt). reflexivity.
    + rewrite (predictionLoop_step _ _ _ _ _ _ Hlt).
      change (Nat.iter k (fun t => t + predictionStep) f0 + predictionStep)%f32
        with (Nat.iter (S k) (fun t => t + predictionStep)%f32 f0).
      rewrite (IH (S k) ltac:(lia) ltac:(lia)).
      change (S r <=? S fuel)%nat with (r <=? fuel)%nat.
      destruct (r <=? fuel)%nat; reflexivity.
Qed.

(** X12.  Whatever the target, the loop of [drawPredictedTrajectory] ends
    after exactly ten iterations: with fuel for ten it draws ten yellow
    points of radius 2, the first half a second ahead of the target and
    each next one half a second further, and with less fuel it does not
    end. *)
Theorem predicted_trajectory_ten_points (fuel : nat) (target : EnemyTarget.t) :
  drawPredictedTrajectory fuel target
  = if (10 <=? fuel)%nat
    then Some (map (fun p => FilledCircle (fst p) (snd p) f2 (255, 255, 0))
                   (predicted 10 (EnemyTarget.x target) (EnemyTarget.y target)
                              (EnemyTarget.speedX target)
                              (EnemyTarget.speedY target)))
    else None.
Proof.
  unfold drawPredictedTrajectory.
  apply (predictionLoop_from 0 ltac:(lia)).
Qed.




(** ** Targets keep their velocity *)

Lemma deactivated_speed a b :
  deactivated a b ->
  EnemyTarget.speedX b = EnemyTarget.speedX a /\
  EnemyTarget.speedY b = EnemyTarget.speedY a.
Proof. intros [->| ->]; split; reflexivity. Qed.

(** One event: a target of the new state whose id was handed out before
    the event is a target of the old state, with the same velocity. *)
Lemma step_target ev w w' :
  step ev w = Some w' ->
  nextID w <= nextID w' /\
  forall e', In e' (enemyTargets w') -> EnemyTarget.id e' < nextID w ->
    exists e, In e (enemyTargets w) /\
              EnemyTarget.id e = EnemyTarget.id e' /\
              EnemyTarget.speedX e' = EnemyTarget.speedX e /\
              EnemyTarget.speedY e' = EnemyTarget.speedY e.
Proof.
  intros Hs. split; [rewrite (step_nextID _ _ _ Hs); destruct ev; lia|].
  intros e' Hin Hlt.
  destruct ev; cbn [step] in Hs.
  - unfold spawnTarget, EnemyTarget.new in Hs.
    destruct (nextID w <? INT_MAX); [|discriminate].
    injection Hs as <-. cbn [enemyTargets] in Hin.
    apply in_app_iff in Hin. destruct Hin as [Hin|[<-|[]]].
    + exists e'. auto.
    + cbn [EnemyTarget.id] in Hlt. lia.
  - injection Hs as <-. destruct (targets_detectionTask w) as [Ht _].
    rewrite Ht in Hin. exists e'. auto.
  - injection Hs as <-.
    destruct (targets_updateEntities deltaTime w) as (ts2 & Hd & Heq).
    rewrite Heq in Hin. apply filter_In in Hin. destruct Hin as [Hin _].
    destruct (Forall2_In_r _ _ _ _ Hd Hin) as (e1 & Hin1 & Hde).
    apply in_map_iff in Hin1. destruct Hin1 as (e & <- & Hin0).
    exists e. split; [exact Hin0|].
    destruct (deactivated_speed _ _ Hde) as [Hsx Hsy].
    destruct (EnemyTarget_update_fields deltaTime e)
      as (_ & _ & Hux & Huy & _).
    rewrite (deactivated_id _ _ Hde), EnemyTarget_update_id.
    split; [reflexivity|]. split; congruence.
  - injection Hs as <-. destruct (targets_keySpace w) as [Ht _].
    rewrite Ht in Hin. exists e'. auto.
Qed.

Lemma run_target evs w w' :
  run evs w = Some w' ->
  nextID w <= nextID w' /\
  forall e', In e' (enemyTargets w') -> EnemyTarget.id e' < nextID w ->
    exists e, In e (enemyTargets w) /\
              EnemyTarget.id e = EnemyTarget.id e' /\
              EnemyTarget.speedX e' = EnemyTarget.speedX e /\
              EnemyTarget.speedY e' = EnemyTarget.speedY e.
Proof.
  revert w. induction evs as [|ev evs IH]; cbn [run]; intros w.
  - intros [= <-]. split; [lia|]. intros e' Hin _. exists e'. auto.
  - destruct (step ev w) as [w1|] eqn:Hs; [|discriminate]. intros Hr.
    destruct (step_target _ _ _ Hs) as [Hle1 Hstep].
    destruct (IH w1 Hr) as [Hle2 Hrest].
    split; [lia|]. intros e' Hin Hlt.
    destruct (Hrest e' Hin ltac:(lia)) as (e1 & Hin1 & Hid1 & Hx1 & Hy1).
    destruct (Hstep e1 Hin1 ltac:(lia)) as (e & Hin0 & Hid0 & Hx0 & Hy0).
    exists e. repeat split; try assumption; congruence.
Qed.

(** X14.  A target never changes its velocity and is never brought back:
    from a reachable state, after any run, the target of the collection
    that carries the id of a target [e] of the first state has the speed
    [e] had; and a target of the later state whose id was handed out before
    the run was in the collection at its start. *)
Theorem targets_keep_velocity
        (evs : list event) (w w' : World) (e' : EnemyTarget.t) :
  reachable w ->
  run evs w = Some w' ->
  In e' (enemyTargets w') ->
  EnemyTarget.id e' < nextID w ->
  exists e,
    In e (enemyTargets w) /\
    EnemyTarget.id e = EnemyTarget.id e' /\
    EnemyTarget.speedX e' = EnemyTarget.speedX e /\
    EnemyTarget.speedY e' = EnemyTarget.speedY e /\
    (forall e0, In e0 (enemyTargets w) ->
                EnemyTarget.id e0 = EnemyTarget.id e' -> e0 = e).
Proof.
  intros Hreach Hr Hin Hlt.
  destruct (run_target _ _ _ Hr) as [_ H].
  destruct (H e' Hin Hlt) as (e & Hin0 & Hid & Hx & Hy).
  destruct (reachable_invariant w Hreach) as [(Hnd & _) _].
  exists e. repeat split; try assumption.
  intros e0 Hin1 Hid1.
  apply (NoDup_map_In_eq EnemyTarget.id (enemyTargets w)); auto. congruence.
Qed.

(** ** Witnesses of the further properties *)

Lemma reachable_two_in_range : reachable two_in_range.
Proof. exists two_in_range_events. vm_compute. reflexivity. Qed.

Lemma reachable_twin_world : reachable twin_world.
Proof. exists twin_events. vm_compute. reflexivity. Qed.

Lemma four_seconds_ok : Forall rand_ok four_seconds.
Proof.
  apply Forall_forall. intros i Hi. apply repeat_spec in Hi. subst i.
  cbn [rand_ok]. lia.
Qed.

Lemma reachable_entities_active_witness :
  Forall (fun m => DefenseMissile.isActive m = true)
         (defenseMissiles twin_world) /\
  Forall (fun e => EnemyTarget.isActive e = true)
         (enemyTargets (world four_seconds_state)).
Proof.
  destruct reachable_entities_active as [Hrun Hmain]. split.
  - apply (Hrun twin_world reachable_twin_world).
  - apply (Hmain four_seconds four_seconds_state).
    vm_compute. reflexivity.
Defined.

Lemma targets_in_creation_order_witness :
  map EnemyTarget.id (enemyTargets two_in_range) = [0; 1] /\
  StronglySorted Z.lt (map EnemyTarget.id (enemyTargets two_in_range)) /\
  Z.of_nat (length (enemyTargets two_in_range)) <= nextID two_in_range.
Proof.
  split; [vm_compute; reflexivity|].
  destruct (targets_in_creation_order two_in_range reachable_two_in_range)
    as (Hs & _ & Hl & _).
  split; [exact Hs|exact Hl].
Defined.

Lemma references_name_issued_targets_witness :
  DefenseMissile.target (first_missile twin_world) = Some 0 /\
  0 <= 0 < nextID twin_world.
Proof.
  split; [vm_compute; reflexivity|].
  destruct (references_name_issued_targets
              twin_world (first_missile twin_world) 0 reachable_twin_world)
    as [Hk _].
  - vm_compute. auto.
  - vm_compute. reflexivity.
  - exact Hk.
Defined.

Lemma missile_deactivated_only_on_contact_witness :
  exists tg,
    lock (enemyTargets (updateAll f3 twin_world))
         (DefenseMissile.target twin_missile) = Some tg /\
    EnemyTarget.isActive tg = true /\
    (distance2 twin_missile tg <? f225)%f32 = true.
Proof.
  destruct (missile_deactivated_only_on_contact
              [] [twin_second] twin_missile
              (enemyTargets (updateAll f3 twin_world)))
    as (tg & Hl & Ha & Hd & _).
  - vm_compute. reflexivity.
  - vm_compute. reflexivity.
  - exists tg. auto.
Defined.

Lemma live_missiles_inside_field_witness :
  length (defenseMissiles twin_world) = 2%nat /\
  Forall (fun m => (DefenseMissile.x m >? SCREEN_WIDTH)%f32 = false)
         (defenseMissiles twin_world).
Proof.
  split; [vm_compute; reflexivity|].
  eapply Forall_impl;
    [|apply (live_missiles_inside_field twin_world reachable_twin_world)].
  cbv beta. intros m (_ & H & _). exact H.
Defined.

Lemma repeated_detection_repeats_launch_witness :
  length (defenseMissiles salvo_world)
  = (length (defenseMissiles two_in_range) + 3)%nat /\
  enemyTargets salvo_world = enemyTargets two_in_range.
Proof.
  destruct (repeated_detection_repeats_launch
              3 two_in_range [] (tl (enemyTargets two_in_range))
              (first_target two_in_range))
    as (Ht & _ & Hm & Hlen & _).
  - vm_compute. reflexivity.
  - constructor.
  - vm_compute. reflexivity.
  - split; [|exact Ht].
    unfold salvo_world. rewrite Hm, length_app, Hlen. reflexivity.
Defined.

Lemma homing_steers_toward_target_witness :
  (EnemyTarget.x homing_target - DefenseMissile.x homing_missile >? f0)%f32
  = true /\
  (DefenseMissile.velocityX
     (DefenseMissile.updateVelocity (Some homing_target) homing_missile)
   <? f0)%f32 = false.
Proof.
  split; [vm_compute; reflexivity|].
  destruct (homing_steers_toward_target homing_target homing_missile)
    as (Hx & _).
  - vm_compute. reflexivity.
  - vm_compute. reflexivity.
  - apply Hx. vm_compute. reflexivity.
Defined.

Lemma main_targets_stay_in_lane_witness :
  length (enemyTargets (world four_seconds_state)) = 2%nat /\
  Forall (fun e => EnemyTarget.speedY e = f0 /\
                   (EnemyTarget.y e >? SCREEN_HEIGHT)%f32 = false)
         (enemyTargets (world four_seconds_state)).
Proof.
  split; [vm_compute; reflexivity|].
  eapply Forall_impl;
    [|apply (main_targets_stay_in_lane four_seconds four_seconds_state
                                       four_seconds_ok);
      vm_compute; reflexivity].
  cbv beta. intros e ((Hsy & _) & _ & _ & _ & _ & _ & Hy & _).
  split; [exact Hsy|exact Hy].
Defined.


Lemma targets_keep_velocity_witness :
  exists e,
    In e (enemyTargets two_in_range) /\
    EnemyTarget.speedX (first_target (updateEntities f1 two_in_range))
    = EnemyTarget.speedX e.
Proof.
  destruct (targets_keep_velocity
              [Update f1] two_in_range (updateEntities f1 two_in_range)
              (first_target (updateEntities f1 two_in_range))
              reachable_two_in_range)
    as (e & Hin & _ & Hx & _).
  - reflexivity.
  - vm_compute. auto.
  - vm_compute. reflexivity.
  - exists e. auto.
Defined.
